(** * Medical-writing API: glossary phrase matching and PLS metric rating

    A shallow embedding of
      - [api/tools/glossary_service/glossary_service.py] (alias generation,
        index build, the simple and the enhanced phrase matcher),
      - [api/core/glossary_singleton.py] (lazy singleton around the service),
      - [api/core/base_tool.py], [api/core/tool_registry.py] and
        [api/tools/glossary_tool.py] (the tool interface, the registry and
        the glossary tool),
      - [api/tools/pls_evaluation_tool.py] (percentile rating and the
        aggregate summary),
      - [api/utils/text_analyzer.py] (the syllable count),
    together with the properties stated about them.

    Modelling conventions.
      - A Python [str] is a list of characters, [list ascii]; a character
        stands for the code point of the same number, so the model covers
        texts over code points 0..255.  On that range [str.lower], the
        regular-expression classes [\w], [\s], [.] and [str.strip] are the
        tables of section [Chars] below.
      - [re.search] / [re.finditer] are modelled by a small backtracking
        matcher for the constructs the two patterns of the source use.
      - dicts used as maps are [gmap]s, Python sets are [gset]s; the dict
        [found_terms], whose insertion order is visible in the result, is an
        association list.
      - floats are modelled by the rationals they denote ([Q]); only
        comparisons and one exact quotient are taken. *)

From Stdlib Require Import Ascii String QArith Lqa.
From stdpp Require Import gmap strings list sorting.

Local Open Scope nat_scope.
Local Open Scope list_scope.

(** ** Characters and strings *)

Abbreviation str := (list ascii).

(** String literals of the development: [py "abc"] is the Python str "abc". *)
Definition py (s : string) : str := list_ascii_of_string s.

Module Chars.

Definition code (c : ascii) : nat := nat_of_ascii c.

Definition between (lo hi n : nat) : bool := (lo <=? n) && (n <=? hi).

(** [str.lower] on one character: A-Z and the Latin-1 capitals
    U+00C0..U+00DE (without the multiplication sign U+00D7) move up by 32. *)
Definition lower_char (c : ascii) : ascii :=
  let n := code c in
  if between 65 90 n || (between 192 222 n && negb (n =? 215))
  then ascii_of_nat (n + 32) else c.

(** Python's whitespace ([str.isspace], used by [strip] and by [\s]):
    TAB..CR, FS..US, space, NEL and the no-break space. *)
Definition is_space (c : ascii) : bool :=
  let n := code c in
  between 9 13 n || between 28 32 n || (n =? 133) || (n =? 160).

(** [\w] for str patterns: alphanumeric ([str.isalnum]) or underscore. *)
Definition is_word (c : ascii) : bool :=
  let n := code c in
  between 48 57 n || between 65 90 n || (n =? 95) || between 97 122 n
  || (n =? 170) || (n =? 178) || (n =? 179) || (n =? 181) || (n =? 185)
  || (n =? 186) || between 188 190 n
  || between 192 214 n || between 216 246 n || between 248 255 n.

(** [.] without DOTALL matches everything but the line feed. *)
Definition is_linebreak (c : ascii) : bool := code c =? 10.

End Chars.
Import Chars.

(** [text.lower()].  On the code points 0..255 of the model [str.lower]
    works character by character and keeps the length; outside them it
    need not (U+0130 becomes two code points), and the offsets that the
    matchers find in the lowercased text are then offsets of that text,
    not of the original one. *)
Definition lower (s : str) : str := map lower_char s.

(** [text[i:j]] for [0 <= i], [0 <= j] (out-of-range bounds are clamped,
    [j < i] gives the empty string, as in Python). *)
Definition slice (s : str) (i j : nat) : str := take (j - i) (drop i s).

Fixpoint lstrip (s : str) : str :=
  match s with
  | c :: s' => if is_space c then lstrip s' else s
  | [] => []
  end.

(** [s.strip()] *)
Definition strip (s : str) : str := rev (lstrip (rev (lstrip s))).

(** ** Regular expressions

    The patterns of the source are sequences of: an escaped literal
    character, [\b], [\s] and the capturing group [(.+)]. *)

Inductive atom : Type :=
  | Lit (c : ascii)
  | WordBoundary
  | Whitespace
  | CaptureAnyPlus.

Abbreviation regex := (list atom).

(** [re.escape(phrase)]: every character of the phrase matches itself. *)
Definition re_escape (phrase : str) : regex := map Lit phrase.

(** Length of the longest prefix without a line feed. *)
Fixpoint line_run (s : str) : nat :=
  match s with
  | c :: s' => if is_linebreak c then 0 else S (line_run s')
  | [] => 0
  end.

Record re_match : Type := ReMatch {
  m_start : nat;
  m_end : nat;
  m_groups : list (nat * nat)
}.

Section Matching.

Variable text : str.

Definition word_at (i : nat) : bool :=
  match text !! i with Some c => is_word c | None => false end.

(** [\b]: exactly one of the characters before and at [pos] is a word
    character (outside the text counts as a non-word character). *)
Definition at_boundary (pos : nat) : bool :=
  xorb (match pos with 0 => false | S p => word_at p end) (word_at pos).

(** Number of characters [.] can consume from [pos]. *)
Definition dot_run (pos : nat) : nat := line_run (drop pos text).

(** Greedy repetition: the continuation is tried after [k] characters,
    then [k-1], ... down to one character. *)
Fixpoint backtrack {A : Type} (k lo : nat) (cont : nat -> option A) : option A :=
  match k with
  | 0 => None
  | S k' =>
      match cont (lo + S k') with
      | Some r => Some r
      | None => backtrack k' lo cont
      end
  end.

(** Match [re] at [pos]; [accept] filters the end position (used for the
    no-empty-match-here rule of [finditer]).  The result is the end
    position and the spans of the groups, in pattern order. *)
Fixpoint match_here (accept : nat -> bool) (re : regex) (pos : nat)
  : option (nat * list (nat * nat)) :=
  match re with
  | [] => if accept pos then Some (pos, []) else None
  | Lit c :: re' =>
      match text !! pos with
      | Some d => if Ascii.eqb c d then match_here accept re' (S pos) else None
      | None => None
      end
  | WordBoundary :: re' =>
      if at_boundary pos then match_here accept re' pos else None
  | Whitespace :: re' =>
      match text !! pos with
      | Some d => if is_space d then match_here accept re' (S pos) else None
      | None => None
      end
  | CaptureAnyPlus :: re' =>
      backtrack (dot_run pos) pos (fun e =>
        match match_here accept re' e with
        | Some (fin, groups) => Some (fin, (pos, e) :: groups)
        | None => None
        end)
  end.

(** Candidate start positions [s], [s+1], ... ([k] of them), leftmost first. *)
Fixpoint search_from (re : regex) (k s : nat) : option re_match :=
  match k with
  | 0 => None
  | S k' =>
      match match_here (fun _ => true) re s with
      | Some (e, groups) => Some (ReMatch s e groups)
      | None => search_from re k' (S s)
      end
  end.

(** [re.search(re, text)] *)
Definition re_search (re : regex) : option re_match :=
  search_from re (S (length text)) 0.

(** [m.group(i)] for [i >= 1] *)
Definition group (m : re_match) (i : nat) : str :=
  match m_groups m !! (i - 1) with
  | Some (a, b) => slice text a b
  | None => []
  end.

Definition match_at (re : regex) (must_advance : bool) (s : nat) : option nat :=
  match match_here (fun e => negb (must_advance && (e =? s))) re s with
  | Some (e, _) => Some e
  | None => None
  end.

(** The scan behind [re.finditer]: [s] is the candidate start, [k] the
    number of candidates left, [resume] the end of the last match (the
    next search starts there).  After an empty match the search is
    resumed at the same position, where a second empty match is refused. *)
Fixpoint scan (re : regex) (k s resume : nat) : list (nat * nat) :=
  match k with
  | 0 => []
  | S k' =>
      if s <? resume then scan re k' (S s) resume
      else
        match match_at re false s with
        | None => scan re k' (S s) resume
        | Some e =>
            if e =? s then
              (s, s) ::
              match match_at re true s with
              | Some e' => (s, e') :: scan re k' (S s) e'
              | None => scan re k' (S s) s
              end
            else (s, e) :: scan re k' (S s) e
        end
  end.

(** [[(m.start(), m.end()) for m in re.finditer(re, text)]] *)
Definition finditer (re : regex) : list (nat * nat) :=
  scan re (S (length text)) 0 0.

End Matching.

(** ** GlossaryService *)

Record glossary_entry : Type := GlossaryEntry {
  main_term : str;
  plain_alternative : str;
  source : str
}.

(** [r'(.+)\s\((.+)\)'] *)
Definition parentheses_re : regex :=
  [CaptureAnyPlus; Whitespace; Lit "("; CaptureAnyPlus; Lit ")"].

(** [GlossaryService._generate_aliases] *)
Definition _generate_aliases (term : str) : gset str :=
  let lower_term := lower term in
  let aliases : gset str := {[ lower_term ]} in
  match re_search lower_term parentheses_re with
  | Some parentheses_match =>
      let main_part := strip (group lower_term parentheses_match 1) in
      let alias_part := strip (group lower_term parentheses_match 2) in
      aliases ∪ {[ main_part ]} ∪ {[ alias_part ]}
  | None => aliases
  end.

(** *** Index build *)

Record GlossaryService : Type := Service {
  phrase_index : gmap str (list glossary_entry);
  all_known_phrases : gset str
}.

(** One element of a glossary JSON file: [entry.get("term")] and
    [entry["plain_alternative"]], [None] when the key is missing. *)
Record raw_entry : Type := RawEntry {
  raw_term : option str;
  raw_plain_alternative : option str
}.

(** A file of the glossaries directory: its name and what [json.load]
    gives ([None] when it raises). *)
Definition glossary_file : Type := str * option (list raw_entry).

(** [s.startswith(p)] *)
Fixpoint startswith (p s : str) : bool :=
  match p, s with
  | [], _ => true
  | a :: p', b :: s' => Ascii.eqb a b && startswith p' s'
  | _ :: _, [] => false
  end.

(** [s.endswith(suffix)] *)
Definition endswith (s suffix : str) : bool := startswith (rev suffix) (rev s).

(** [s.replace(old, "")] for a non-empty [old]: every occurrence, found
    left to right, is dropped; [skip] counts the characters of the current
    occurrence still to drop. *)
Fixpoint remove_all (old : str) (skip : nat) (s : str) : str :=
  match s with
  | [] => []
  | c :: s' =>
      match skip with
      | S k => remove_all old k s'
      | 0 =>
          if startswith old s then remove_all old (length old - 1) s'
          else c :: remove_all old 0 s'
      end
  end.

(** [self.phrase_index[alias].append(definition_record)] on the
    [defaultdict(list)] *)
Definition index_append (definition_record : glossary_entry) (alias : str)
    (index : gmap str (list glossary_entry)) : gmap str (list glossary_entry) :=
  <[ alias := default [] (index !! alias) ++ [definition_record] ]> index.

(** Body of the loop over the entries of one file; [None] is the
    [KeyError] of a record without ["plain_alternative"]. *)
Definition index_entry (source_name : str) (svc : GlossaryService) (entry : raw_entry)
    : option GlossaryService :=
  match raw_term entry with
  | None | Some [] => Some svc
  | Some original_term =>
      match raw_plain_alternative entry with
      | None => None
      | Some alternative =>
          let definition_record := GlossaryEntry original_term alternative source_name in
          let aliases := _generate_aliases original_term in
          Some (Service
                  (set_fold (index_append definition_record) (phrase_index svc) aliases)
                  (all_known_phrases svc ∪ aliases))
      end
  end.

(** A loop whose body may raise. *)
Fixpoint for_each {S A : Type} (body : S -> A -> option S) (st : S) (l : list A)
    : option S :=
  match l with
  | [] => Some st
  | x :: l' =>
      match body st x with
      | Some st' => for_each body st' l'
      | None => None
      end
  end.

Definition index_file (svc : GlossaryService) (file : glossary_file)
    : option GlossaryService :=
  let '(filename, content) := file in
  if endswith filename (py ".json") then
    let source_name := remove_all (py ".json") 0 filename in
    match content with
    | Some data => for_each (index_entry source_name) svc data
    | None => None
    end
  else Some svc.

(** [GlossaryService._load_and_index]; the argument is [os.listdir] with the
    files read, [None] when the directory cannot be listed. *)
Definition _load_and_index (svc : GlossaryService) (glossaries_dir : option (list glossary_file))
    : option GlossaryService :=
  match glossaries_dir with
  | Some files => for_each index_file svc files
  | None => None
  end.

(** [GlossaryService.__init__]; [None] when construction raises. *)
Definition new_service (glossaries_dir : option (list glossary_file))
    : option GlossaryService :=
  _load_and_index (Service ∅ ∅) glossaries_dir.

(** *** Enhanced matcher *)

Record def_info : Type := DefInfo {
  di_plain_alternative : str;
  di_source : str
}.

Record match_info : Type := MatchInfo {
  alias_found : str;
  location_start : nat;
  location_end : nat
}.

Record found_term : Type := FoundTerm {
  ft_main_term : str;
  definitions : list def_info;
  matches_in_text : list match_info
}.

Record analysis_summary : Type := Summary {
  total_unique_phrases_found : nat;
  text_character_length : nat
}.

Record enhanced_result : Type := Result {
  summary_of : analysis_summary;
  found_terms : list found_term
}.

#[global] Instance def_info_eq_dec : EqDecision def_info.
Proof. solve_decision. Defined.

#[global] Instance match_info_eq_dec : EqDecision match_info.
Proof. solve_decision. Defined.

(** [sorted(phrases, key=len, reverse=True)]: stable, longest first. *)
Fixpoint insert_by_len (x : str) (l : list str) : list str :=
  match l with
  | [] => [x]
  | y :: l' => if length y <=? length x then x :: l else y :: insert_by_len x l'
  end.

Definition sorted_by_len_desc (l : list str) : list str := foldr insert_by_len [] l.

(** [r'\b' + re.escape(phrase) + r'\b'] *)
Definition phrase_pattern (phrase : str) : regex :=
  [WordBoundary] ++ re_escape phrase ++ [WordBoundary].

(** [any(start_pos < existing_end and end_pos > existing_start for ...)] *)
Definition overlaps (start_pos end_pos : nat) (matched_ranges : list (nat * nat)) : bool :=
  existsb (fun '(existing_start, existing_end) =>
             (start_pos <? existing_end) && (existing_start <? end_pos))
          matched_ranges.

(** The dict [found_terms], in insertion order. *)
Definition term_dict : Type := list (str * found_term).

Definition has_key (k : str) (d : term_dict) : bool :=
  existsb (fun kv => bool_decide (kv.1 = k)) d.

Definition update_key (k : str) (f : found_term -> found_term) (d : term_dict) : term_dict :=
  map (fun kv => if bool_decide (kv.1 = k) then (kv.1, f kv.2) else kv) d.

Definition append_new {A : Type} `{EqDecision A} (x : A) (l : list A) : list A :=
  if bool_decide (x ∈ l) then l else l ++ [x].

(** Body of [for definition in definitions]. *)
Definition record_definition (original_text : str) (start_pos end_pos : nat)
    (found : term_dict) (definition : glossary_entry) : term_dict :=
  let main_term := main_term definition in
  let found :=
    if has_key main_term found then found
    else found ++ [(main_term, FoundTerm main_term [] [])] in
  let def_info := DefInfo (plain_alternative definition) (source definition) in
  let match_info := MatchInfo (slice original_text start_pos end_pos) start_pos end_pos in
  update_key main_term
    (fun t => FoundTerm (ft_main_term t)
                (append_new def_info (definitions t))
                (append_new match_info (matches_in_text t)))
    found.

(** Body of [for match in re.finditer(pattern, text_lower)]; the state is
    [(found_terms, matched_ranges)]. *)
Definition record_match (index : gmap str (list glossary_entry))
    (original_text phrase : str) (st : term_dict * list (nat * nat)) (m : nat * nat)
    : term_dict * list (nat * nat) :=
  let '(start_pos, end_pos) := m in
  if overlaps start_pos end_pos st.2 then st
  else
    (* [self.phrase_index[phrase]]: the defaultdict gives [] for a missing
       key (and stores the key, which nothing reads afterwards). *)
    let definitions := default [] (index !! phrase) in
    (foldl (record_definition original_text start_pos end_pos) st.1 definitions,
     st.2 ++ [(start_pos, end_pos)]).

Definition scan_phrase (index : gmap str (list glossary_entry))
    (original_text text_lower : str) (st : term_dict * list (nat * nat)) (phrase : str)
    : term_dict * list (nat * nat) :=
  foldl (record_match index original_text phrase) st
        (finditer text_lower (phrase_pattern phrase)).

(** [GlossaryService.find_and_define_phrases_in_text_enhanced].  The list
    [phrases] is [list(self.all_known_phrases)]: the known phrases in the
    iteration order of the set, which Python leaves unspecified. *)
Definition find_and_define_phrases_in_text_enhanced (self : GlossaryService)
    (phrases : list str) (text : str) : enhanced_result :=
  let text_lower := lower text in
  let original_text := text in
  let sorted_phrases := sorted_by_len_desc phrases in
  let st := foldl (scan_phrase (phrase_index self) original_text text_lower) ([], [])
                  sorted_phrases in
  Result (Summary (length st.1) (length text)) (st.1.*2).

(** [phrases] is an enumeration of the set [s]. *)
Definition enumerates (phrases : list str) (s : gset str) : Prop :=
  phrases ≡ₚ elements s.

(** ** GlossaryServiceSingleton *)

(** The lines the singleton prints. *)
Inductive log_line : Type :=
  | Initializing          (* "Initializing GlossaryService singleton..." *)
  | ServiceReady (n : nat)
                          (* "GlossaryService is ready. Indexed n unique phrases
                             and their aliases.", printed by [__init__] *)
  | InitializedOk         (* "... initialized successfully." *)
  | InitWarning.          (* "Warning: Could not initialize ..." *)

#[global] Instance log_line_eq_dec : EqDecision log_line.
Proof. solve_decision. Defined.

(** The attributes [_service] and [_initialized] of the one instance, and
    what has been printed so far. *)
Record singleton : Type := Singleton {
  _service : option GlossaryService;
  _initialized : bool;
  stdout : list log_line
}.

(** [GlossaryServiceSingleton.get_service]; [glossaries_dir] is the state
    of the directory named by GLOSSARIES_DIR at the time of the call. *)
Definition get_service (glossaries_dir : option (list glossary_file)) (self : singleton)
    : option GlossaryService * singleton :=
  if negb (_initialized self) then
    let out := stdout self ++ [Initializing] in
    match new_service glossaries_dir with
    | Some service =>
        let ready := ServiceReady (size (all_known_phrases service)) in
        (Some service, Singleton (Some service) true (out ++ [ready; InitializedOk]))
    | None => (None, Singleton None true (out ++ [InitWarning]))
    end
  else (_service self, self).

(** [GlossaryServiceSingleton.reset] *)
Definition reset (self : singleton) : singleton :=
  Singleton None false (stdout self).

(** Construction attempts so far: each one prints [Initializing] first. *)
Definition build_attempts (self : singleton) : nat :=
  length (filter (fun l => l = Initializing) (stdout self)).

(** Successive [get_service] calls, one per directory state. *)
Fixpoint get_service_calls (dirs : list (option (list glossary_file))) (self : singleton)
    : list (option GlossaryService) * singleton :=
  match dirs with
  | [] => ([], self)
  | d :: dirs' =>
      let '(r, self') := get_service d self in
      let '(rs, self'') := get_service_calls dirs' self' in
      (r :: rs, self'')
  end.

(** ** PLSEvaluationTool *)

Module PLS.

Local Open Scope string_scope.

Inductive rating : Type :=
  | P25 | P50 | P75 | P90 | P10 | BEYOND_P90 | BELOW_P10.

#[global] Instance rating_eq_dec : EqDecision rating.
Proof. solve_decision. Defined.

(** One entry of the thresholds table. *)
Record threshold_data : Type := Thresholds {
  excellent : Q;
  good : Q;
  acceptable : Q;
  poor : Q;
  direction : string
}.

Inductive feedback_text : Type :=
  | ConsiderIncreasing (value target : Q)
  | ConsiderReducing (value target : Q).

Record metric_evaluation : Type := Evaluation {
  ev_value : Q;
  ev_rating : rating;
  ev_direction : string;
  ev_feedback : option feedback_text
}.

(** [a >= b] on floats *)
Definition ge (a b : Q) : bool := Qle_bool b a.
(** [a <= b] on floats *)
Definition le (a b : Q) : bool := Qle_bool a b.

(** [PLSEvaluationTool._evaluate_metric] *)
Definition _evaluate_metric (feature : string) (value : Q)
    (thresholds : threshold_data) (direction : string) : metric_evaluation :=
  let rating :=
    if String.eqb direction "higher_better" then
      if ge value (excellent thresholds) then P75
      else if ge value (good thresholds) then P50
      else if ge value (acceptable thresholds) then P25
      else if ge value (poor thresholds) then P10
      else BELOW_P10
    else
      if le value (excellent thresholds) then P25
      else if le value (good thresholds) then P50
      else if le value (acceptable thresholds) then P75
      else if le value (poor thresholds) then P90
      else BEYOND_P90 in
  let feedback :=
    if String.eqb direction "higher_better" then
      match rating with
      | P10 | BELOW_P10 => Some (ConsiderIncreasing value (good thresholds))
      | _ => None
      end
    else
      match rating with
      | P90 | BEYOND_P90 => Some (ConsiderReducing value (good thresholds))
      | _ => None
      end in
  Evaluation value rating direction feedback.

Definition recommended_features : list string :=
  [ "words_per_sentence"; "passive_voice"; "active_voice";
    "sentences_per_paragraph"; "pronouns"; "nominalization"; "verbs";
    "nouns"; "numbers";
    "flesch_reading_ease"; "flesch_kincaid_grade";
    "automated_readability_index"; "coleman_liau_index";
    "gunning_fog_index"; "lix"; "rix"; "smog_index";
    "dale_chall_readability";
    "complex_words_dc"; "complex_words"; "long_words";
    "syllables_per_word"; "polysyllables";
    "tobeverb"; "auxverb"; "subordinating_conjunctions";
    "words"; "sentences"; "paragraphs" ].

(** The dict [rating_counts]: one counter per rating, all starting at 0. *)
Definition rating_counts : Type := rating -> nat.

Definition no_counts : rating_counts := fun _ => 0%nat.

(** [rating_counts[r] += 1] *)
Definition increment (r : rating) (counts : rating_counts) : rating_counts :=
  fun r' => if decide (r' = r) then S (counts r') else counts r'.

(** [sum(rating_counts.values())] *)
Definition sum_values (counts : rating_counts) : nat :=
  (counts P25 + counts P50 + counts P75 + counts P90 + counts P10
   + counts BEYOND_P90 + counts BELOW_P10)%nat.

(** Body of [for feature in self.recommended_features]; the state is the
    evaluations made so far, in loop order, and [rating_counts].  The names
    of [recommended_features] are distinct, so these evaluations are the
    entries that [linguistic_evaluation] holds for the rated features. *)
Definition evaluate_feature (features : gmap string Q)
    (thresholds : gmap string threshold_data)
    (st : list (string * metric_evaluation) * rating_counts) (feature : string)
    : list (string * metric_evaluation) * rating_counts :=
  if bool_decide (feature ∈ ["words"; "sentences"]) then st
  else
    match features !! feature with
    | None => st
    | Some value =>
        match thresholds !! feature with
        | None => st
        | Some threshold_data =>
            let direction := direction threshold_data in
            let evaluation := _evaluate_metric feature value threshold_data direction in
            ((st.1 ++ [(feature, evaluation)])%list, increment (ev_rating evaluation) st.2)
        end
    end.

Record evaluation_summary : Type := EvalSummary {
  counts : rating_counts;
  total_evaluated : nat;
  best_quartile_rate : Q
}.

Definition nat_to_Q (n : nat) : Q := inject_Z (Z.of_nat n).

(** The "Calculate summary" block of [PLSEvaluationTool.execute]: the
    summary fields [*_count], [total_evaluated] and [best_quartile_rate].
    The counts are exact; the rate is the exact value of
    [(best_quartile / total_evaluated) * 100], which the program rounds
    twice to binary64 (33.33333333333333 for 1 of 3). *)
Definition summarize (rating_counts : rating_counts) : evaluation_summary :=
  let total_evaluated := sum_values rating_counts in
  let best_quartile_rate :=
    if (0 <? total_evaluated)%nat then
      let best_quartile := (rating_counts P25 + rating_counts P75)%nat in
      ((nat_to_Q best_quartile / nat_to_Q total_evaluated) * 100)%Q
    else 0%Q in
  EvalSummary rating_counts total_evaluated best_quartile_rate.

(** [PLSEvaluationTool._evaluate_word_count]: [true] is "within_limit". *)
Definition _evaluate_word_count (word_count limit : Q) : bool := le word_count limit.

(** The result of a successful run.  [linguistic_evaluation] lists the
    entries of the rated features, in insertion order; the two leading
    entries "words" and "sentences" of the dict, which carry no percentile
    rating, are left out. *)
Record evaluation_data : Type := EvaluationData {
  linguistic_evaluation : list (string * metric_evaluation);
  word_count_status : bool;
  summary : evaluation_summary
}.

Inductive tool_error : Type :=
  | TextRequired                 (* "'text' parameter is required" *)
  | LinguisticAnalysisFailed.    (* "Linguistic analysis failed: ..." *)

(** The [ToolResponse]: status "error" with its message, or status
    "success" with the evaluation data (the "text" output format renders
    the same data). *)
Inductive tool_response : Type :=
  | ResponseError (e : tool_error)
  | ResponseSuccess (d : evaluation_data).

(** [PLSEvaluationTool.execute] for a tool whose
    [self.recommended_features] is [feature_list].  [analyze] is the
    linguistic analysis tool: the features of a text, or [None] when its
    status is not "success". *)
Definition execute_with (feature_list : list string)
    (analyze : str -> option (gmap string Q))
    (thresholds : gmap string threshold_data) (text : str) : tool_response :=
  match text with
  | [] => ResponseError TextRequired
  | _ :: _ =>
      match analyze text with
      | None => ResponseError LinguisticAnalysisFailed
      | Some features =>
          let word_count := default 0%Q (features !! "words") in
          let word_count_status := _evaluate_word_count word_count 850 in
          let st := foldl (evaluate_feature features thresholds) ([], no_counts)
                          feature_list in
          let rating_counts := st.2 in
          ResponseSuccess (EvaluationData st.1 word_count_status (summarize rating_counts))
      end
  end.

(** The tool as [__init__] sets it up. *)
Definition execute (analyze : str -> option (gmap string Q))
    (thresholds : gmap string threshold_data) (text : str) : tool_response :=
  execute_with recommended_features analyze thresholds text.

(** *** The aggregate as the specification words it

    A rated feature lands in the best quartile of its own direction:
    [P75] for a [higher_better] feature, [P25] for a [lower_better] one. *)
Definition lands_in_best_quartile (e : metric_evaluation) : bool :=
  (String.eqb (ev_direction e) "higher_better" && bool_decide (ev_rating e = P75))
  || (String.eqb (ev_direction e) "lower_better" && bool_decide (ev_rating e = P25)).

(** 100 times the number of such features over the number of rated
    features. *)
Definition spec_best_quartile_rate (evaluated : list (string * metric_evaluation)) : Q :=
  (100 * nat_to_Q (length (filter (fun fe => lands_in_best_quartile fe.2) evaluated))
   / nat_to_Q (length evaluated))%Q.



(** Inputs of the examples: a thresholds table with one higher_better and
    two lower_better features, and the features of a text. *)
Definition example_thresholds : gmap string threshold_data :=
  {[ "flesch_reading_ease" := Thresholds 70 50 30 10 "higher_better";
     "flesch_kincaid_grade" := Thresholds 6 8 10 12 "lower_better";
     "lix" := Thresholds 35 40 45 50 "lower_better" ]}.

Definition example_features : gmap string Q :=
  {[ "words" := 300%Q; "sentences" := 20%Q;
     "flesch_reading_ease" := 35%Q; "flesch_kincaid_grade" := 9%Q;
     "lix" := 30%Q ]}.

(** A linguistic analysis that finds these features in every text. *)
Definition example_analysis (text : str) : option (gmap string Q) :=
  Some example_features.

End PLS.

(** ** Notions used in the statements *)

(** [P] holds of every match recorded in the dict. *)
Definition all_matches (P : match_info -> Prop) (d : term_dict) : Prop :=
  Forall (fun kv => Forall P (matches_in_text kv.2)) d.

(** A string is in lower case when [lower] leaves it unchanged. *)
Definition lowered (s : str) : Prop := Forall (fun c => lower_char c = c) s.

(** The invariant of the build: the keys of the index are lower-case
    strings and known phrases. *)
Definition index_invariant (svc : GlossaryService) : Prop :=
  forall alias, alias ∈ dom (phrase_index svc) ->
                lower alias = alias /\ alias ∈ all_known_phrases svc.

(** A whitespace character directly followed by an opening parenthesis. *)
Fixpoint has_space_paren (s : str) : bool :=
  match s with
  | c :: (d :: _) as s' => (is_space c && Ascii.eqb d "(") || has_space_paren s'
  | _ => false
  end.

Definition no_linebreak (s : str) : bool := forallb (fun c => negb (is_linebreak c)) s.

(** The parts of a term "<main> (<alt>)" on which the pattern splits the
    term at that very parenthesis: both parts are non-empty and on one line,
    and <alt> opens no further parenthesis after a whitespace character. *)
Definition plain_parts (main alt : str) : bool :=
  negb (bool_decide (main = [])) && negb (bool_decide (alt = []))
  && no_linebreak main && no_linebreak alt && negb (has_space_paren alt).

(** A term that is empty or holds whitespace only. *)
Definition blank (term : str) : bool := forallb is_space term.




(** Glossaries and texts of the examples. *)
Definition entry (term alternative : string) : raw_entry :=
  RawEntry (Some (py term)) (Some (py alternative)).

Definition disease_dir : option (list glossary_file) :=
  Some [(py "core.json",
         Some [entry "disease" "illness"; entry "chronic disease" "long-lasting illness"])].

Definition overlap_text : str := py "This chronic disease is not just any disease.".

(** The two terms found in [overlap_text], with their spans. *)
Definition overlap_report : list found_term :=
  [ FoundTerm (py "chronic disease")
      [DefInfo (py "long-lasting illness") (py "core")]
      [MatchInfo (py "chronic disease") 5 20];
    FoundTerm (py "disease")
      [DefInfo (py "illness") (py "core")]
      [MatchInfo (py "disease") 37 44] ].

Definition blank_alias_dir : option (list glossary_file) :=
  Some [(py "core.json", Some [entry "x ( )" "y"])].

(** A glossary with the term "Pertussis (Whooping Cough)". *)
Definition pertussis_dir : option (list glossary_file) :=
  Some [(py "who.json", Some [entry "Pertussis (Whooping Cough)" "a cough illness"])].

(** ** Further notions of the enhanced matcher *)

(** The range of a reported span. *)
Definition span_of (m : match_info) : nat * nat := (location_start m, location_end m).

(** The overlap test of the matcher, [start < existing_end and end >
    existing_start], on two ranges. *)
Definition overlap (a b : nat * nat) : bool := (a.1 <? b.2) && (b.1 <? a.2).

(** The loop state [(found_terms, matched_ranges)] when the matcher leaves
    its loops. *)
Definition enhanced_state (self : GlossaryService) (phrases : list str) (text : str)
    : term_dict * list (nat * nat) :=
  foldl (scan_phrase (phrase_index self) text (lower text)) ([], [])
        (sorted_by_len_desc phrases).

(** Some found term reports the range [r]. *)
Definition reported (found : term_dict) (r : nat * nat) : Prop :=
  exists kv m, kv ∈ found /\ m ∈ matches_in_text kv.2 /\ span_of m = r.

(** The index holds at least one entry for every phrase of the list. *)
Definition index_defines (index : gmap str (list glossary_entry)) (phrases : list str)
    : bool :=
  forallb (fun phrase => match index !! phrase with
                         | Some (_ :: _) => true
                         | _ => false
                         end) phrases.

(** The invariant of the loops on the shape of the dict: distinct keys, each
    entry under its own main term, without repeated definitions or spans
    and with at least one of each. *)
Definition well_grouped (found : term_dict) : Prop :=
  NoDup found.*1
  /\ Forall (fun kv => ft_main_term kv.2 = kv.1
                       /\ NoDup (definitions kv.2) /\ NoDup (matches_in_text kv.2)
                       /\ definitions kv.2 <> [] /\ matches_in_text kv.2 <> []) found.

(** No two ranges of the list overlap. *)
Definition disjoint_ranges (ranges : list (nat * nat)) : Prop :=
  forall i j r1 r2, i < j -> ranges !! i = Some r1 -> ranges !! j = Some r2 ->
                    overlap r1 r2 = false.

(** The range [r] is an accepted range or overlaps one. *)
Definition covered (ranges : list (nat * nat)) (r : nat * nat) : Prop :=
  exists r', r' ∈ ranges /\ (r' = r \/ overlap r r' = true).

(** The service built from [disease_dir]. *)
Definition disease_service : GlossaryService :=
  default (Service ∅ ∅) (new_service disease_dir).

(** ** GlossaryService: the simple matcher *)

(** [s.replace(old, "")] (an empty [old] leaves [s] as it is) *)
Definition remove_substring (old s : str) : str :=
  match old with
  | [] => s
  | _ :: _ => remove_all old 0 s
  end.

(** [d[k] = v] on a dict kept in insertion order: the value of an existing
    key is replaced in place, a new key goes to the end. *)
Definition dict_set {K V : Type} `{EqDecision K} (k : K) (v : V) (d : list (K * V))
    : list (K * V) :=
  if bool_decide (k ∈ d.*1)
  then (fun kv => if bool_decide (kv.1 = k) then (k, v) else kv) <$> d
  else d ++ [(k, v)].

(** [d.get(k)] *)
Fixpoint dict_get {K V : Type} `{EqDecision K} (k : K) (d : list (K * V)) : option V :=
  match d with
  | [] => None
  | (k', v) :: d' => if bool_decide (k' = k) then Some v else dict_get k d'
  end.

(** Body of [for phrase in sorted_phrases] of
    [find_and_define_phrases_in_text]; the state is
    [(found_phrases, text_to_scan)].  [self.phrase_index[phrase]] on the
    defaultdict gives [] for a missing key. *)
Definition scan_phrase_simple (index : gmap str (list glossary_entry))
    (st : list (str * list glossary_entry) * str) (phrase : str)
    : list (str * list glossary_entry) * str :=
  match re_search st.2 (phrase_pattern phrase) with
  | Some _ =>
      (dict_set phrase (default [] (index !! phrase)) st.1,
       remove_substring phrase st.2)
  | None => st
  end.

(** [GlossaryService.find_and_define_phrases_in_text]; [phrases] is
    [list(self.all_known_phrases)] as for the enhanced matcher, the result
    the dict [found_phrases] in insertion order. *)
Definition find_and_define_phrases_in_text (self : GlossaryService)
    (phrases : list str) (text : str) : list (str * list glossary_entry) :=
  let text_lower := lower text in
  let sorted_phrases := sorted_by_len_desc phrases in
  let text_to_scan := text_lower in
  (foldl (scan_phrase_simple (phrase_index self)) ([], text_to_scan) sorted_phrases).1.

(** ** Notions of the index build *)

(** The record has a non-empty term: the loop does not skip it. *)
Definition has_term (e : raw_entry) : bool :=
  match raw_term e with
  | Some (_ :: _) => true
  | _ => false
  end.

(** The files and records that the build reads: files named "*.json" and,
    in them, the records with a term. *)
Definition relevant_files (files : list glossary_file) : list glossary_file :=
  (fun f : glossary_file => (f.1, filter (fun e => has_term e = true) <$> f.2))
    <$> filter (fun f : glossary_file => endswith f.1 (py ".json") = true) files.

(** The record makes the build raise: a term without a plain alternative. *)
Definition entry_breaks_build (e : raw_entry) : bool :=
  has_term e && negb (bool_decide (is_Some (raw_plain_alternative e))).

(** The file makes the build raise: a "*.json" file that cannot be loaded
    or holds such a record. *)
Definition file_breaks_build (f : glossary_file) : bool :=
  endswith f.1 (py ".json")
  && match f.2 with
     | None => true
     | Some data => existsb entry_breaks_build data
     end.

(** The index and the phrase set agree, every key holds at least one
    entry, and every entry sits under an alias of its own non-empty main
    term. *)
Definition index_consistent (svc : GlossaryService) : Prop :=
  dom (phrase_index svc) = all_known_phrases svc
  /\ forall alias entries,
       phrase_index svc !! alias = Some entries ->
       entries <> []
       /\ Forall (fun d => main_term d <> [] /\ alias ∈ _generate_aliases (main_term d))
                 entries.

(** ** Notions of the simple matcher *)

(** [phrase] stands in [text] at position [s] between two word boundaries. *)
Definition whole_word_at (text phrase : str) (s : nat) : Prop :=
  at_boundary text s = true
  /\ slice text s (s + length phrase) = phrase
  /\ at_boundary text (s + length phrase) = true.

(** [sorted(..., key=len, reverse=True)] puts no phrase before a longer one. *)
Definition longest_first (l : list str) : Prop :=
  StronglySorted (fun a b => length b <= length a) l.

(** ** BaseTool and ToolRegistry *)

(** [ToolInfo]; of the JSON schema [parameters] the list under "required"
    is kept, the one part of it that the code reads. *)
Record ToolInfo : Type := MkToolInfo {
  name : str;
  description : str;
  required : list str;
  version : str
}.

(** The abstract class [BaseTool]: a tool has an [info]. *)
Class BaseTool (T : Type) : Type := info : T -> ToolInfo.

(** [BaseTool.validate_parameters]:
    [all(param in parameters for param in required_params)] *)
Definition validate_parameters {T V : Type} `{BaseTool T} (self : T)
    (parameters : gmap str V) : bool :=
  let required_params := required (info self) in
  forallb (fun param => bool_decide (is_Some (parameters !! param))) required_params.

(** The dict [_tools], in insertion order, and the lines printed. *)
Record ToolRegistry (T : Type) : Type := Registry {
  _tools : list (str * T);
  registered_lines : list str
}.

Arguments Registry {T} _ _.
Arguments _tools {T} _.
Arguments registered_lines {T} _.

(** [ToolRegistry.__init__] *)
Definition new_registry {T : Type} : ToolRegistry T := Registry [] [].

(** [ToolRegistry.register] *)
Definition register {T : Type} `{BaseTool T} (tool : T) (self : ToolRegistry T)
    : ToolRegistry T :=
  let tool_info := info tool in
  Registry (dict_set (name tool_info) tool (_tools self))
           (registered_lines self ++ [py "Registered tool: " ++ name tool_info]).

(** [ToolRegistry.get_tool] *)
Definition get_tool {T : Type} (name : str) (self : ToolRegistry T) : option T :=
  dict_get name (_tools self).

(** [ToolRegistry.list_tools] *)
Definition list_tools {T : Type} `{BaseTool T} (self : ToolRegistry T) : list ToolInfo :=
  (fun kv => info kv.2) <$> _tools self.

(** [ToolRegistry.tool_exists] *)
Definition tool_exists {T : Type} (name : str) (self : ToolRegistry T) : bool :=
  bool_decide (name ∈ (_tools self).*1).

(** Successive [register] calls on a new registry. *)
Definition register_all {T : Type} `{BaseTool T} (tools : list T) : ToolRegistry T :=
  foldl (fun self tool => register tool self) new_registry tools.

(** ** GlossaryTool *)

Module GlossaryTool.

(** A value of the [parameters] dict, which is read from JSON: a [str], or
    a value of another type ([None], a number, a list, ...), given by the
    name of its type. *)
Inductive py_value : Type :=
  | PyStr (s : str)
  | PyOther (type_name : str).

(** The attribute [glossary_service], captured by [__init__]. *)
Record GlossaryTool : Type := Tool {
  glossary_service : option GlossaryService
}.

(** [GlossaryTool.__init__]: the service is asked of the singleton once,
    when the tool is made. *)
Definition new_tool (glossaries_dir : option (list glossary_file)) (st : singleton)
    : GlossaryTool * singleton :=
  let '(service, st') := get_service glossaries_dir st in
  (Tool service, st').

(** [GlossaryTool.info] *)
#[global] Instance glossary_tool_info : BaseTool GlossaryTool := fun _ =>
  MkToolInfo (py "glossary")
       (py "Find and define complex medical phrases within a body of text with location information")
       [py "text"]
       (py "2.0.0").

(** The [ToolResponse] of the tool, whose [tool_name] is always
    "glossary": status "error" with the message, or status "success" with
    the result. *)
Inductive tool_response : Type :=
  | ResponseError (error : str)
  | ResponseSuccess (result : enhanced_result).

(** [str(e)] for the [AttributeError] of [text.lower()] on a value that is
    no [str]. *)
Definition no_attribute_lower (type_name : str) : str :=
  py "'" ++ type_name ++ py "' object has no attribute 'lower'".

(** [GlossaryTool.execute]; [phrases] is [list(self.all_known_phrases)] of
    the service, as for the matcher.  [parameters.get("text")] of a missing
    key is the value [None]. *)
Definition execute (self : GlossaryTool) (phrases : list str)
    (parameters : gmap str py_value) : tool_response :=
  match glossary_service self with
  | None => ResponseError (py "Glossary service is not available")
  | Some service =>
      if negb (validate_parameters self parameters) then
        ResponseError (py "Missing required parameter: text")
      else
        let text := default (PyOther (py "NoneType")) (parameters !! py "text") in
        match text with
        | PyStr text =>
            ResponseSuccess (find_and_define_phrases_in_text_enhanced service phrases text)
        | PyOther type_name => ResponseError (no_attribute_lower type_name)
        end
  end.

End GlossaryTool.

(** ** Notions of the PLS evaluation *)

Module PLSScale.

Import PLS.

Local Open Scope string_scope.

(** Place of a rating on the scale of a higher_better feature, from the
    best bucket (0) to the worst (4); 5 for a rating of the other scale. *)
Definition rank_higher_better (r : rating) : nat :=
  match r with
  | P75 => 0 | P50 => 1 | P25 => 2 | P10 => 3 | BELOW_P10 => 4
  | P90 | BEYOND_P90 => 5
  end.

(** The same for a lower_better feature. *)
Definition rank_lower_better (r : rating) : nat :=
  match r with
  | P25 => 0 | P50 => 1 | P75 => 2 | P90 => 3 | BEYOND_P90 => 4
  | P10 | BELOW_P10 => 5
  end.

(** The loop of [execute] rates the feature: it is neither "words" nor
    "sentences", the analysis has a value for it and the table has
    thresholds for it. *)
Definition rateable (features : gmap string Q) (thresholds : gmap string threshold_data)
    (feature : string) : bool :=
  negb (bool_decide (feature ∈ ["words"; "sentences"]))
  && bool_decide (is_Some (features !! feature))
  && bool_decide (is_Some (thresholds !! feature)).

(** The entry that the loop stores for a rated feature. *)
Definition evaluation_of (features : gmap string Q)
    (thresholds : gmap string threshold_data) (fe : string * metric_evaluation) : Prop :=
  exists value threshold_data,
    features !! fe.1 = Some value /\ thresholds !! fe.1 = Some threshold_data
    /\ fe.2 = _evaluate_metric fe.1 value threshold_data (direction threshold_data).

End PLSScale.

(** ** Spelling of the reported aliases *)

(** The span [m] with [alias_found] read from [text]. *)
Definition respelled (text : str) (m : match_info) : match_info :=
  MatchInfo (slice text (location_start m) (location_end m))
            (location_start m) (location_end m).

(** The found term [t] with every alias read from [text]. *)
Definition respelled_term (text : str) (t : found_term) : found_term :=
  FoundTerm (ft_main_term t) (definitions t) (respelled text <$> matches_in_text t).

(** ** TextLinguisticAnalyzer.count_syllables *)

(** The class [[a-z]] *)
Definition is_ascii_lower (c : ascii) : bool := between 97 122 (code c).

(** The class [[aeiouy]] *)
Definition is_vowel (c : ascii) : bool :=
  bool_decide (c ∈ py "aeiouy").

(** [re.sub(r'[^a-z]', '', s)] *)
Definition remove_non_letters (s : str) : str := List.filter is_ascii_lower s.

(** [len(re.findall(r'[aeiouy]+', w))]: the number of maximal runs of
    vowels; [in_group] tells that the character before [w] is a vowel. *)
Fixpoint vowel_groups (in_group : bool) (w : str) : nat :=
  match w with
  | [] => 0
  | c :: w' =>
      if is_vowel c then (if in_group then 0 else 1) + vowel_groups true w'
      else vowel_groups false w'
  end.

(** [TextLinguisticAnalyzer.count_syllables] *)
Definition count_syllables (word : str) : Z :=
  let w := remove_non_letters (lower word) in
  match w with
  | [] => 0%Z
  | _ :: _ =>
      let count := Z.of_nat (vowel_groups false w) in
      let count := if endswith w (py "e") then (count - 1)%Z else count in
      Z.max count 1
  end.

(** A letter of the ASCII alphabet, in either case. *)
Definition is_ascii_letter (c : ascii) : bool :=
  between 65 90 (code c) || between 97 122 (code c).

(** * Properties *)

(** ** Metric rating *)

Module PLSFacts.
Import PLS.

Lemma ge_true (a b : Q) : ge a b = true <-> (b <= a)%Q.
Proof. unfold ge. apply Qle_bool_iff. Qed.

Lemma ge_false (a b : Q) : ge a b = false <-> (a < b)%Q.
Proof.
  unfold ge. split.
  - intros H. apply Qnot_le_lt. intros Hle.
    apply Qle_bool_iff in Hle. congruence.
  - intros H. destruct (Qle_bool b a) eqn:E; [|reflexivity].
    apply Qle_bool_iff in E. lra.
Qed.

(** C4.  For a higher_better feature whose thresholds are ordered
    excellent >= good >= acceptable >= poor, the rating is P75 exactly
    when value >= excellent, P50 exactly when good <= value < excellent,
    P25 exactly when acceptable <= value < good, P10 exactly when
    poor <= value < acceptable, and BELOW_P10 exactly when value < poor. *)
Theorem higher_better_rating (feature : string) (value : Q) (t : threshold_data) :
  (good t <= excellent t)%Q ->
  (acceptable t <= good t)%Q ->
  (poor t <= acceptable t)%Q ->
  let r := ev_rating (_evaluate_metric feature value t "higher_better") in
  (r = P75 <-> (excellent t <= value)%Q) /\
  (r = P50 <-> (good t <= value)%Q /\ (value < excellent t)%Q) /\
  (r = P25 <-> (acceptable t <= value)%Q /\ (value < good t)%Q) /\
  (r = P10 <-> (poor t <= value)%Q /\ (value < acceptable t)%Q) /\
  (r = BELOW_P10 <-> (value < poor t)%Q).
Proof.
  intros Hge Hga Hap. cbn.
  destruct (ge value (excellent t)) eqn:E1;
    [apply ge_true in E1 | apply ge_false in E1];
  (destruct (ge value (good t)) eqn:E2;
    [apply ge_true in E2 | apply ge_false in E2]);
  (destruct (ge value (acceptable t)) eqn:E3;
    [apply ge_true in E3 | apply ge_false in E3]);
  (destruct (ge value (poor t)) eqn:E4;
    [apply ge_true in E4 | apply ge_false in E4]);
  repeat split; intros; try discriminate; try reflexivity; try lra.
Qed.

(** The values of the specification's example, obtained from
    [higher_better_rating] at the thresholds 70/50/30/10. *)
Lemma higher_better_rating_example :
  let t := Thresholds 70 50 30 10 "higher_better" in
  let rate v := ev_rating (_evaluate_metric "flesch_reading_ease" v t (direction t)) in
  rate 80%Q = P75 /\ rate 50%Q = P50 /\ rate 35%Q = P25 /\ rate 15%Q = P10
  /\ rate 5%Q = BELOW_P10.
Proof.
  pose (t := Thresholds 70 50 30 10 "higher_better").
  assert (H1 : (good t <= excellent t)%Q) by (cbn; lra).
  assert (H2 : (acceptable t <= good t)%Q) by (cbn; lra).
  assert (H3 : (poor t <= acceptable t)%Q) by (cbn; lra).
  cbv zeta. fold t. change (direction t) with "higher_better"%string.
  refine (conj _ (conj _ (conj _ (conj _ _)))).
  - apply (higher_better_rating "flesch_reading_ease" 80 t H1 H2 H3). cbn. lra.
  - apply (higher_better_rating "flesch_reading_ease" 50 t H1 H2 H3). cbn. lra.
  - apply (higher_better_rating "flesch_reading_ease" 35 t H1 H2 H3). cbn. lra.
  - apply (higher_better_rating "flesch_reading_ease" 15 t H1 H2 H3). cbn. lra.
  - apply (higher_better_rating "flesch_reading_ease" 5 t H1 H2 H3). cbn. lra.
Defined.

(** C1.  The reported rate counts ratings without regard to direction.
    With flesch_reading_ease = 35 (higher_better, rated P25: the third
    bucket of its direction), flesch_kincaid_grade = 9 (lower_better,
    rated P75: the third bucket of its direction) and lix = 30
    (lower_better, rated P25: its best quartile), one feature of three
    lands in the best quartile of its own direction, so the specified
    rate is 100/3; the reported best_quartile_rate is 100. *)
Theorem best_quartile_rate_ignores_direction :
  exists d,
    execute example_analysis example_thresholds (py "A short summary.")
    = ResponseSuccess d
    /\ ((fun fe => (fe.1, ev_rating fe.2, ev_direction fe.2)) <$> linguistic_evaluation d)
       = [ ("flesch_reading_ease"%string, P25, "higher_better"%string);
           ("flesch_kincaid_grade"%string, P75, "lower_better"%string);
           ("lix"%string, P25, "lower_better"%string) ]
    /\ total_evaluated (summary d) = 3
    /\ (best_quartile_rate (summary d) == 100)%Q
    /\ (spec_best_quartile_rate (linguistic_evaluation d) == 100 # 3)%Q.
Proof.
  eexists. split; [reflexivity|].
  vm_compute. repeat split; intros; discriminate.
Qed.

End PLSFacts.

(** ** Singleton *)

Lemma get_service_initialized (d : option (list glossary_file)) (self : singleton) :
  _initialized self = true -> get_service d self = (_service self, self).
Proof. intros H. unfold get_service. by rewrite H. Qed.

Lemma get_service_calls_failed (dirs : list (option (list glossary_file))) (self : singleton) :
  _initialized self = true -> _service self = None ->
  get_service_calls dirs self = (replicate (length dirs) None, self).
Proof.
  intros Hi Hs. induction dirs as [|d dirs IH]; [reflexivity|].
  cbn [get_service_calls]. rewrite (get_service_initialized d self Hi), IH, Hs.
  reflexivity.
Qed.

Lemma build_attempts_failed (self : singleton) (svc : option GlossaryService) (b : bool) :
  build_attempts (Singleton svc b ((stdout self ++ [Initializing]) ++ [InitWarning]))
  = S (build_attempts self).
Proof.
  unfold build_attempts. cbn [stdout].
  rewrite !filter_app, !length_app. cbn.
  repeat case_decide; try congruence. cbn. lia.
Qed.

Lemma build_attempts_succeeded (self : singleton) (svc : option GlossaryService) (b : bool)
    (n : nat) :
  build_attempts
    (Singleton svc b ((stdout self ++ [Initializing]) ++ [ServiceReady n; InitializedOk]))
  = S (build_attempts self).
Proof.
  unfold build_attempts. cbn [stdout].
  rewrite !filter_app, !length_app. cbn.
  repeat case_decide; try congruence. cbn. lia.
Qed.

(** C10.  When construction fails on the first call, [get_service] returns
    None and leaves the singleton initialized; any further sequence of
    [get_service] calls returns None each time and changes nothing (in
    particular no construction is attempted, whatever the directory now
    holds); after [reset] the next call attempts construction again and
    returns its outcome. *)
Theorem failed_init_is_sticky (d : option (list glossary_file)) (self : singleton) :
  _initialized self = false ->
  new_service d = None ->
  let '(r, self1) := get_service d self in
  r = None /\ _initialized self1 = true /\ _service self1 = None
  /\ build_attempts self1 = S (build_attempts self)
  /\ (forall dirs,
        get_service_calls dirs self1 = (replicate (length dirs) None, self1))
  /\ (forall d',
        let '(r', self2) := get_service d' (reset self1) in
        r' = new_service d' /\ _service self2 = new_service d'
        /\ _initialized self2 = true
        /\ build_attempts self2 = S (build_attempts self1)).
Proof.
  intros Hinit Hfail. unfold get_service at 1. rewrite Hinit, Hfail. cbn [negb].
  split; [reflexivity|]. split; [reflexivity|]. split; [reflexivity|].
  split; [apply build_attempts_failed|].
  split.
  - intros dirs. by apply get_service_calls_failed.
  - intros d'. unfold get_service, reset. cbn [_initialized negb stdout].
    destruct (new_service d') as [svc|].
    + repeat split. apply (build_attempts_succeeded (Singleton None true _)).
    + repeat split. apply (build_attempts_failed (Singleton None true _)).
Qed.

(** A directory that cannot be listed makes construction fail. *)
Lemma failed_init_is_sticky_missing_dir :
  let '(r, self1) := get_service None (Singleton None false []) in
  r = None /\ _initialized self1 = true /\ _service self1 = None
  /\ build_attempts self1 = S (build_attempts (Singleton None false []))
  /\ (forall dirs,
        get_service_calls dirs self1 = (replicate (length dirs) None, self1))
  /\ (forall d',
        let '(r', self2) := get_service d' (reset self1) in
        r' = new_service d' /\ _service self2 = new_service d'
        /\ _initialized self2 = true
        /\ build_attempts self2 = S (build_attempts self1)).
Proof.
  exact (failed_init_is_sticky None (Singleton None false []) eq_refl eq_refl).
Defined.

(** ** The matcher for regular expressions *)

Section RegexFacts.

Variable text : str.

Lemma backtrack_Some {A : Type} (k lo : nat) (cont : nat -> option A) (r : A) :
  backtrack k lo cont = Some r ->
  exists j, 1 <= j <= k /\ cont (lo + j) = Some r.
Proof.
  induction k as [|k IH]; cbn; [discriminate|].
  destruct (cont (lo + S k)) as [r'|] eqn:E.
  - intros [= <-]. exists (S k). split; [lia|done].
  - intros H. destruct (IH H) as (j & Hj & Hc). exists j. split; [lia|done].
Qed.

Lemma backtrack_first {A : Type} (k lo j : nat) (cont : nat -> option A) (r : A) :
  1 <= j <= k ->
  cont (lo + j) = Some r ->
  (forall i, j < i <= k -> cont (lo + i) = None) ->
  backtrack k lo cont = Some r.
Proof.
  induction k as [|k IH]; intros Hj Hc Hnone; [lia|].
  cbn. destruct (decide (j = S k)) as [->|Hne].
  - by rewrite Hc.
  - rewrite (Hnone (S k)) by lia. apply IH; [lia|done|].
    intros i Hi. apply Hnone. lia.
Qed.

Lemma backtrack_None {A : Type} (k lo : nat) (cont : nat -> option A) :
  (forall i, 1 <= i <= k -> cont (lo + i) = None) ->
  backtrack k lo cont = None.
Proof.
  induction k as [|k IH]; intros Hnone; [reflexivity|].
  cbn. rewrite (Hnone (S k)) by lia. apply IH. intros i Hi. apply Hnone. lia.
Qed.

(** A run of escaped literals consumes exactly those characters. *)
Lemma match_here_literals (accept : nat -> bool) (p : str) (re : regex) (pos : nat)
    (r : nat * list (nat * nat)) :
  match_here text accept (re_escape p ++ re) pos = Some r ->
  take (length p) (drop pos text) = p
  /\ match_here text accept re (pos + length p) = Some r.
Proof.
  revert pos. induction p as [|c p IH]; intros pos; cbn.
  - rewrite Nat.add_0_r. by rewrite take_0.
  - destruct (text !! pos) as [d|] eqn:E; [|discriminate].
    destruct (Ascii.eqb c d) eqn:Ecd; [|discriminate].
    apply Ascii.eqb_eq in Ecd. subst d.
    intros H. apply IH in H as [Htake Hrest].
    rewrite (drop_S _ _ _ E). cbn.
    replace (pos + S (length p)) with (S pos + length p) by lia.
    split; [|done]. by f_equal.
Qed.

(** What a match of [\b phrase \b] looks like. *)
Lemma match_at_phrase (p : str) (must_advance : bool) (s e : nat) :
  match_at text (phrase_pattern p) must_advance s = Some e ->
  at_boundary text s = true /\ e = s + length p /\ slice text s e = p
  /\ at_boundary text e = true /\ (must_advance = true -> e <> s).
Proof.
  unfold match_at, phrase_pattern.
  destruct (match_here _ _ _ _) as [[e' gs]|] eqn:E; [|discriminate].
  intros [= ->]. cbn in E.
  destruct (at_boundary text s) eqn:Eb; [|discriminate].
  apply match_here_literals in E as [Htake E]. cbn in E.
  destruct (at_boundary text (s + length p)) eqn:Ee; [|discriminate].
  destruct (negb _) eqn:Eacc; [|discriminate].
  injection E as <- _.
  split; [done|]. split; [done|]. split.
  - unfold slice. by replace (s + length p - s) with (length p) by lia.
  - split; [done|]. intros ->. cbn in Eacc.
    apply negb_true_iff, Nat.eqb_neq in Eacc. done.
Qed.

Lemma scan_sound (re : regex) (k s0 resume s e : nat) :
  (s, e) ∈ scan text re k s0 resume ->
  exists must_advance, match_at text re must_advance s = Some e.
Proof.
  revert s0 resume. induction k as [|k IH]; intros s0 resume; cbn [scan].
  - by intros ?%elem_of_nil.
  - destruct (s0 <? resume); [apply IH|].
    destruct (match_at text re false s0) as [e0|] eqn:E0; [|apply IH].
    destruct (e0 =? s0) eqn:Eq.
    + apply Nat.eqb_eq in Eq. subst e0.
      intros [[= -> ->]|H]%elem_of_cons; [by exists false|].
      destruct (match_at text re true s0) as [e1|] eqn:E1; [|by eapply IH].
      apply elem_of_cons in H as [[= -> ->]|H]; [by exists true|by eapply IH].
    + intros [[= -> ->]|H]%elem_of_cons; [by exists false|by eapply IH].
Qed.

(** Every span [finditer] yields for [\b phrase \b] is an occurrence of the
    phrase with a word boundary at both ends. *)
Lemma finditer_phrase (p : str) (s e : nat) :
  (s, e) ∈ finditer text (phrase_pattern p) ->
  at_boundary text s = true /\ e = s + length p /\ slice text s e = p
  /\ at_boundary text e = true.
Proof.
  intros H. apply scan_sound in H as [ma H].
  apply match_at_phrase in H. tauto.
Qed.

End RegexFacts.

(** ** Strings *)

Lemma length_slice_eq (s p : str) (i j : nat) : slice s i j = p -> length p <= j - i.
Proof. intros <-. unfold slice. rewrite length_take. lia. Qed.

(** ** Sorting the phrases *)

Lemma insert_by_len_perm (x : str) (l : list str) : insert_by_len x l ≡ₚ x :: l.
Proof.
  induction l as [|y l IH]; cbn; [done|].
  destruct (length y <=? length x); [done|].
  rewrite IH. apply Permutation_swap.
Qed.

Lemma sorted_by_len_desc_perm (l : list str) : sorted_by_len_desc l ≡ₚ l.
Proof.
  induction l as [|x l IH]; cbn; [done|].
  rewrite insert_by_len_perm. by f_equiv.
Qed.

(** ** Invariants of the enhanced matcher *)

Lemma foldl_invariant {S A : Type} (I : S -> Prop) (f : S -> A -> S) (l : list A) (st : S) :
  (forall st x, x ∈ l -> I st -> I (f st x)) -> I st -> I (foldl f st l).
Proof.
  revert st. induction l as [|x l IH]; intros st Hstep Hst; cbn; [done|].
  apply IH.
  - intros st' y Hy. apply Hstep. by right.
  - apply Hstep; [by left|done].
Qed.

Section MatcherInvariant.

Variable self : GlossaryService.
Variable text : str.

Let index : gmap str (list glossary_entry) := phrase_index self.

Variable P : match_info -> Prop.

Lemma append_new_Forall (m : match_info) (l : list match_info) :
  P m -> Forall P l -> Forall P (append_new m l).
Proof.
  intros Hm Hl. unfold append_new. case_bool_decide; [done|].
  apply Forall_app. split; [done|]. by constructor.
Qed.

Lemma record_definition_matches (s e : nat) (found : term_dict) (d : glossary_entry) :
  P (MatchInfo (slice text s e) s e) ->
  all_matches P found ->
  all_matches P (record_definition text s e found d).
Proof.
  intros Hm Hd. unfold record_definition, update_key, all_matches.
  apply Forall_map.
  assert (Hd' : all_matches P
            (if has_key (main_term d) found then found
             else found ++ [(main_term d, FoundTerm (main_term d) [] [])])).
  { destruct (has_key _ _); [done|]. apply Forall_app. split; [done|].
    constructor; [|done]. cbn. constructor. }
  eapply Forall_impl; [exact Hd'|]. intros [k t] Hk. cbn in *.
  case_bool_decide; cbn; [|done]. by apply append_new_Forall.
Qed.

Lemma record_match_matches (phrase : str) (st : term_dict * list (nat * nat))
    (m : nat * nat) :
  P (MatchInfo (slice text m.1 m.2) m.1 m.2) ->
  all_matches P st.1 ->
  all_matches P (record_match index text phrase st m).1.
Proof.
  destruct m as [s e]. intros Hm Hd. unfold record_match.
  destruct (overlaps s e st.2); [done|]. cbn [fst].
  apply (foldl_invariant (all_matches P)); [|done].
  intros found d _. by apply record_definition_matches.
Qed.

Lemma scan_phrase_matches (phrase : str) (st : term_dict * list (nat * nat)) :
  (forall s e, (s, e) ∈ finditer (lower text) (phrase_pattern phrase) ->
               P (MatchInfo (slice text s e) s e)) ->
  all_matches P st.1 ->
  all_matches P (scan_phrase index text (lower text) st phrase).1.
Proof.
  intros Hall Hd. unfold scan_phrase.
  apply (foldl_invariant (fun st => all_matches P st.1)); [|done].
  intros st' [s e] Hin Hst'. apply record_match_matches; [|done]. by apply Hall.
Qed.

Lemma find_enhanced_matches (phrases : list str) :
  (forall phrase s e,
      phrase ∈ phrases ->
      (s, e) ∈ finditer (lower text) (phrase_pattern phrase) ->
      P (MatchInfo (slice text s e) s e)) ->
  forall t m,
    t ∈ found_terms (find_and_define_phrases_in_text_enhanced self phrases text) ->
    m ∈ matches_in_text t ->
    P m.
Proof.
  intros Hall t m Ht Hm. unfold find_and_define_phrases_in_text_enhanced in Ht. cbn [found_terms] in Ht.
  apply list_elem_of_fmap in Ht as ([k t'] & -> & Hkt).
  assert (Hinv : all_matches P
            (foldl (scan_phrase index text (lower text)) ([], []) (sorted_by_len_desc phrases)).1).
  { apply (foldl_invariant (fun st => all_matches P st.1)); [|by constructor].
    intros st phrase Hin Hst. apply scan_phrase_matches; [|done].
    intros s e. apply Hall. by rewrite <- (sorted_by_len_desc_perm phrases). }
  unfold all_matches in Hinv. rewrite Forall_forall in Hinv.
  specialize (Hinv _ Hkt). rewrite Forall_forall in Hinv. by apply Hinv.
Qed.

End MatcherInvariant.

(** ** Iteration orders of small phrase sets *)

Lemma perm_1 (l : list str) (a : str) : l ≡ₚ [a] -> l = [a].
Proof. intros H. symmetry in H. by apply Permutation_singleton_l in H. Qed.

Lemma perm_2 (l : list str) (a b : str) : l ≡ₚ [a; b] -> l = [a; b] \/ l = [b; a].
Proof. intros H. symmetry in H. by apply Permutation_length_2_inv in H. Qed.

Lemma perm_3 (l : list str) (a b c : str) :
  l ≡ₚ [a; b; c] ->
  l = [a; b; c] \/ l = [a; c; b] \/ l = [b; a; c] \/ l = [b; c; a]
  \/ l = [c; a; b] \/ l = [c; b; a].
Proof.
  intros H. apply Permutation_cons_inv_r in H as (k1 & k2 & -> & H).
  symmetry in H. apply perm_2 in H.
  destruct k1 as [|x [|y [|z k1]]]; cbn in H;
    destruct H as [H|H]; simplify_eq; cbn; tauto.
Qed.

(** ** Empty text *)

Lemma finditer_empty_text (phrase : str) : finditer [] (phrase_pattern phrase) = [].
Proof. reflexivity. Qed.

(** C8.  On the empty text the enhanced matcher returns no found term, a
    count of 0 and a text length of 0, for every index and every list of
    known phrases (the model is a total function: no call raises). *)
Theorem empty_text_no_matches (self : GlossaryService) (phrases : list str) :
  find_and_define_phrases_in_text_enhanced self phrases [] = Result (Summary 0 0) [].
Proof.
  unfold find_and_define_phrases_in_text_enhanced. cbn [lower map].
  assert (H : foldl (scan_phrase (phrase_index self) [] []) ([], [])
                    (sorted_by_len_desc phrases)
              = ([], [])).
  { generalize (sorted_by_len_desc phrases). intros l.
    induction l as [|p l IH]; [reflexivity|].
    cbn [foldl]. unfold scan_phrase at 2. rewrite finditer_empty_text. exact IH. }
  rewrite H. reflexivity.
Qed.

(** ** Whole-word occurrences *)






(** ** Longest match first *)

(** C2.  With the index built from the two terms "disease" and "chronic
    disease", whatever the iteration order of the phrase set, the matcher
    applied to "This chronic disease is not just any disease." reports
    exactly two spans: "chronic disease" at [5, 20) and the second
    "disease" at [37, 44).  The occurrence of "disease" at [13, 20), inside
    the first span, is not reported. *)
Theorem longest_match_priority (svc : GlossaryService) (phrases : list str) :
  new_service disease_dir = Some svc ->
  enumerates phrases (all_known_phrases svc) ->
  found_terms (find_and_define_phrases_in_text_enhanced svc phrases overlap_text)
  = overlap_report
  /\ slice overlap_text 13 20 = py "disease"
  /\ forall t, t ∈ found_terms (find_and_define_phrases_in_text_enhanced svc phrases overlap_text) ->
               MatchInfo (py "disease") 13 20 ∉ matches_in_text t.
Proof.
  intros Hsvc Hen. vm_compute in Hsvc. injection Hsvc as <-.
  unfold enumerates in Hen. vm_compute in Hen.
  match goal with |- ?lhs = _ /\ _ =>
    assert (Hres : lhs = overlap_report);
      [|split; [exact Hres|split; [reflexivity|]]]
  end.
  - apply perm_2 in Hen as [-> | ->]; vm_compute; reflexivity.
  - intros t. rewrite Hres. intros Ht Hm.
    repeat (apply elem_of_cons in Ht as [-> | Ht]);
      [| |by apply elem_of_nil in Ht]; cbn in Hm;
      apply elem_of_cons in Hm as [Hm|Hm]; try discriminate;
      by apply elem_of_nil in Hm.
Qed.

Lemma longest_match_priority_any_order :
  exists svc phrases,
    new_service disease_dir = Some svc
    /\ enumerates phrases (all_known_phrases svc)
    /\ found_terms (find_and_define_phrases_in_text_enhanced svc phrases overlap_text)
       = overlap_report.
Proof.
  destruct (new_service disease_dir) as [svc|] eqn:E; [|vm_compute in E; discriminate].
  exists svc, (elements (all_known_phrases svc)).
  split; [reflexivity|]. split; [apply Permutation_refl|].
  exact (proj1 (longest_match_priority svc _ E (Permutation_refl _))).
Defined.

(** ** Blank aliases *)

(** C3.  A glossary term with a blank parenthesis, "x ( )", makes the
    index hold the empty alias; on the text "x" the matcher then reports,
    besides the span [0, 1) of "x", the zero-width spans [0, 0) and [1, 1),
    for which location_start < location_end fails. *)
Theorem blank_alias_zero_width_span (svc : GlossaryService) (phrases : list str) :
  new_service blank_alias_dir = Some svc ->
  enumerates phrases (all_known_phrases svc) ->
  _generate_aliases (py "x ( )") = {[ py "x ( )"; py "x"; [] ]}
  /\ found_terms (find_and_define_phrases_in_text_enhanced svc phrases (py "x"))
     = [ FoundTerm (py "x ( )")
           [DefInfo (py "y") (py "core")]
           [MatchInfo (py "x") 0 1; MatchInfo [] 0 0; MatchInfo [] 1 1] ].
Proof.
  intros Hsvc Hen. vm_compute in Hsvc. injection Hsvc as <-.
  unfold enumerates in Hen. vm_compute in Hen.
  split.
  - apply (bool_decide_unpack _). by vm_compute.
  - apply perm_3 in Hen as [-> | [-> | [-> | [-> | [-> | ->]]]]];
      vm_compute; reflexivity.
Qed.

Lemma blank_alias_zero_width_span_any_order :
  exists svc phrases,
    new_service blank_alias_dir = Some svc
    /\ enumerates phrases (all_known_phrases svc)
    /\ exists t m,
         t ∈ found_terms (find_and_define_phrases_in_text_enhanced svc phrases (py "x"))
         /\ m ∈ matches_in_text t
         /\ location_start m = location_end m.
Proof.
  destruct (new_service blank_alias_dir) as [svc|] eqn:E; [|vm_compute in E; discriminate].
  exists svc, (elements (all_known_phrases svc)).
  split; [reflexivity|]. split; [apply Permutation_refl|].
  rewrite (proj2 (blank_alias_zero_width_span svc _ E (Permutation_refl _))).
  eexists _, (MatchInfo [] 0 0). split; [by left|]. split; [|reflexivity].
  right. by left.
Defined.

(** ** Lowercase strings *)

Ltac each_char c := destruct c as [[] [] [] [] [] [] [] []]; vm_compute; try done.

Lemma lower_char_idem (c : ascii) : lower_char (lower_char c) = lower_char c.
Proof. each_char c. Qed.

Lemma lower_char_space (c : ascii) : is_space c = true -> lower_char c = c.
Proof. each_char c. Qed.

Lemma is_space_lower_char (c : ascii) : is_space (lower_char c) = is_space c.
Proof. each_char c. Qed.

Lemma is_linebreak_lower_char (c : ascii) : is_linebreak (lower_char c) = is_linebreak c.
Proof. each_char c. Qed.

Lemma lower_char_paren (c : ascii) : lower_char c = "("%char -> c = "("%char.
Proof. each_char c. Qed.

Lemma space_not_paren (c : ascii) : is_space c = true -> c <> "("%char.
Proof. each_char c. Qed.

Lemma lowered_iff (s : str) : lowered s <-> lower s = s.
Proof.
  unfold lowered, lower. induction s as [|c s IH]; cbn.
  - split; [done|constructor].
  - rewrite Forall_cons, IH. split; [intros [-> ->]; done|].
    intros [= H1 H2]. by rewrite H1, H2.
Qed.

Lemma lowered_lower (s : str) : lowered (lower s).
Proof.
  unfold lowered, lower. apply Forall_map, Forall_forall. intros c _. cbn.
  apply lower_char_idem.
Qed.

Lemma lowered_slice (s : str) (i j : nat) : lowered s -> lowered (slice s i j).
Proof. intros H. unfold slice. by apply Forall_take, Forall_drop. Qed.

Lemma lowered_lstrip (s : str) : lowered s -> lowered (lstrip s).
Proof.
  induction s as [|c s IH]; cbn; [done|]. intros H.
  destruct (is_space c); [|done]. apply IH. by apply Forall_inv_tail in H.
Qed.

Lemma lowered_strip (s : str) : lowered s -> lowered (strip s).
Proof.
  intros H. unfold strip.
  by apply Forall_rev, lowered_lstrip, Forall_rev, lowered_lstrip.
Qed.

Lemma lowered_group (text : str) (m : re_match) (i : nat) :
  lowered text -> lowered (group text m i).
Proof.
  intros H. unfold group. destruct (m_groups m !! (i - 1)) as [[a b]|].
  - by apply lowered_slice.
  - constructor.
Qed.

(** Every alias is in lower case. *)
Lemma generate_aliases_lowered (term alias : str) :
  alias ∈ _generate_aliases term -> lower alias = alias.
Proof.
  intros H. apply lowered_iff. unfold _generate_aliases in H.
  pose proof (lowered_lower term) as Hl.
  destruct (re_search (lower term) parentheses_re) as [m|].
  - apply elem_of_union in H as [H|H]; [apply elem_of_union in H as [H|H]|];
      apply elem_of_singleton in H; subst alias;
      [done|by apply lowered_strip, lowered_group..].
  - apply elem_of_singleton in H. by subst alias.
Qed.

(** ** The index build *)

Lemma dom_index_appends (d : glossary_entry) (index : gmap str (list glossary_entry))
    (aliases : gset str) :
  dom (set_fold (index_append d) index aliases) = dom index ∪ aliases.
Proof.
  apply (set_fold_ind_L (fun r X => dom r = dom index ∪ X)).
  - by rewrite (right_id_L ∅ (∪)).
  - intros x X r _ IH. unfold index_append. rewrite dom_insert_L, IH.
    by rewrite !(assoc_L (∪)), (comm_L (∪) {[x]}).
Qed.

Lemma index_entry_invariant (source_name : str) (svc svc' : GlossaryService)
    (e : raw_entry) :
  index_invariant svc -> index_entry source_name svc e = Some svc' ->
  index_invariant svc'.
Proof.
  intros Hinv. unfold index_entry.
  destruct (raw_term e) as [[|c term]|]; try (by intros [= <-]).
  destruct (raw_plain_alternative e) as [alt|]; [|discriminate].
  intros [= <-] alias. cbn [phrase_index all_known_phrases].
  rewrite dom_index_appends. intros [H|H]%elem_of_union.
  - destruct (Hinv alias H) as [? ?]. split; [done|]. apply elem_of_union. by left.
  - split; [by eapply generate_aliases_lowered|]. apply elem_of_union. by right.
Qed.

Lemma for_each_invariant {S A : Type} (I : S -> Prop) (body : S -> A -> option S)
    (l : list A) (st st' : S) :
  (forall st x st', I st -> body st x = Some st' -> I st') ->
  I st -> for_each body st l = Some st' -> I st'.
Proof.
  intros Hbody. revert st. induction l as [|x l IH]; intros st Hst; cbn.
  - by intros [= <-].
  - destruct (body st x) as [st1|] eqn:E; [|discriminate]. apply IH. by eapply Hbody.
Qed.

Lemma index_file_invariant (svc svc' : GlossaryService) (file : glossary_file) :
  index_invariant svc -> index_file svc file = Some svc' -> index_invariant svc'.
Proof.
  intros Hinv. destruct file as [filename content]. unfold index_file.
  destruct (endswith filename (py ".json")); [|by intros [= <-]].
  destruct content as [data|]; [|discriminate].
  apply for_each_invariant; [|done]. intros ???. apply index_entry_invariant.
Qed.

(** C9.  When the build completes, every alias key of the phrase index is
    equal to its own lowercasing and belongs to the set of known phrases. *)
Theorem index_keys_lowercase_and_known (glossaries_dir : option (list glossary_file))
    (svc : GlossaryService) (alias : str) :
  new_service glossaries_dir = Some svc ->
  alias ∈ dom (phrase_index svc) ->
  lower alias = alias /\ alias ∈ all_known_phrases svc.
Proof.
  intros Hnew. revert alias. change (index_invariant svc).
  unfold new_service, _load_and_index in Hnew.
  destruct glossaries_dir as [files|]; [|discriminate].
  revert Hnew. apply for_each_invariant.
  - intros ???. apply index_file_invariant.
  - intros alias H. cbn in H. set_solver.
Qed.

Lemma index_keys_lowercase_and_known_pertussis :
  exists svc,
    new_service pertussis_dir = Some svc
    /\ py "whooping cough" ∈ dom (phrase_index svc)
    /\ lower (py "whooping cough") = py "whooping cough"
    /\ py "whooping cough" ∈ all_known_phrases svc.
Proof.
  destruct (new_service pertussis_dir) as [svc|] eqn:E; [|vm_compute in E; discriminate].
  exists svc. split; [reflexivity|].
  assert (H : py "whooping cough" ∈ dom (phrase_index svc)).
  { vm_compute in E. injection E as <-. apply (bool_decide_unpack _). by vm_compute. }
  split; [exact H|].
  exact (index_keys_lowercase_and_known pertussis_dir svc (py "whooping cough") E H).
Defined.

(** ** The parenthesis pattern *)

Lemma line_run_no_linebreak (s : str) : no_linebreak s = true -> line_run s = length s.
Proof.
  induction s as [|c s IH]; cbn; [done|].
  intros [Hc Hs]%andb_true_iff. apply negb_true_iff in Hc. rewrite Hc.
  by rewrite IH.
Qed.

Lemma no_linebreak_app (s t : str) :
  no_linebreak (s ++ t) = no_linebreak s && no_linebreak t.
Proof. unfold no_linebreak. apply forallb_app. Qed.

Lemma has_space_paren_lookup (s : str) (j : nat) (c : ascii) :
  has_space_paren s = false ->
  s !! j = Some c -> is_space c = true -> s !! S j <> Some "("%char.
Proof.
  revert j. induction s as [|a s IH]; intros j Hno Hj Hc; [done|].
  destruct s as [|b s]; [by destruct j|].
  cbn [has_space_paren] in Hno. apply orb_false_iff in Hno as [Hab Hno].
  destruct j as [|j].
  - cbn in *. injection Hj as ->. rewrite Hc in Hab. cbn in Hab.
    intros [= ->]. by cbn in Hab.
  - by apply (IH j).
Qed.

Lemma match_here_capture (text : str) (accept : nat -> bool) (re : regex) (pos : nat) :
  match_here text accept (CaptureAnyPlus :: re) pos
  = backtrack (dot_run text pos) pos (fun e =>
      match match_here text accept re e with
      | Some (fin, groups) => Some (fin, (pos, e) :: groups)
      | None => None
      end).
Proof. reflexivity. Qed.

Section ParenthesesSearch.

Variables main alt : str.
Hypothesis main_nonempty : main <> [].
Hypothesis alt_nonempty : alt <> [].
Hypothesis main_line : no_linebreak main = true.
Hypothesis alt_line : no_linebreak alt = true.
Hypothesis alt_plain : has_space_paren alt = false.

Let text : str := main ++ py " (" ++ alt ++ py ")".

Lemma text_length : length text = length main + length alt + 3.
Proof. unfold text. rewrite !length_app. cbn. lia. Qed.

Lemma text_lookup_tail (j : nat) :
  text !! (length main + 2 + j) = (alt ++ py ")") !! j.
Proof.
  unfold text. rewrite lookup_app_r by lia.
  by replace (length main + 2 + j - length main) with (S (S j)) by lia.
Qed.

Lemma text_lookup_space : text !! length main = Some " "%char.
Proof.
  unfold text. rewrite lookup_app_r by lia. by rewrite Nat.sub_diag.
Qed.

Lemma text_lookup_paren : text !! S (length main) = Some "("%char.
Proof.
  unfold text. rewrite lookup_app_r by lia.
  by replace (S (length main) - length main) with 1 by lia.
Qed.

Lemma dot_run_start : dot_run text 0 = length text.
Proof.
  unfold dot_run. rewrite drop_0. apply line_run_no_linebreak.
  unfold text. rewrite !no_linebreak_app, main_line, alt_line. reflexivity.
Qed.

Lemma dot_run_alt : dot_run text (length main + 2) = S (length alt).
Proof.
  unfold dot_run, text.
  rewrite drop_app_add. cbn [py list_ascii_of_string app drop]. rewrite drop_0.
  rewrite line_run_no_linebreak.
  - rewrite length_app. cbn. lia.
  - by rewrite no_linebreak_app, alt_line.
Qed.

(** After the first group the rest of the pattern matches only at the
    parenthesis that closes [main]. *)
Lemma rest_fails_later (accept : nat -> bool) (i : nat) :
  length main < i ->
  match_here text accept [Whitespace; Lit "("; CaptureAnyPlus; Lit ")"] i = None.
Proof.
  intros Hi. cbn [match_here].
  destruct (text !! i) as [d|] eqn:Ed; [|done].
  destruct (is_space d) eqn:Hd; [|done].
  destruct (text !! S i) as [d'|] eqn:Ed'; [|done].
  destruct (Ascii.eqb "(" d') eqn:Hd'; [|done]. exfalso.
  apply Ascii.eqb_eq in Hd'. subst d'.
  destruct (decide (i = S (length main))) as [->|Hne].
  { rewrite text_lookup_paren in Ed. injection Ed as <-. done. }
  pose (j := i - (length main + 2)).
  replace i with (length main + 2 + j) in Ed by lia.
  replace (S i) with (length main + 2 + S j) in Ed' by lia.
  rewrite text_lookup_tail in Ed, Ed'.
  destruct (decide (S j < length alt)) as [Hlt|Hge].
  - rewrite lookup_app_l in Ed, Ed' by lia.
    by apply (has_space_paren_lookup alt j d alt_plain).
  - destruct (decide (j < length alt)) as [Hlt|Hge'].
    + rewrite lookup_app_r in Ed' by lia.
      replace (S j - length alt) with 0 in Ed' by lia. done.
    + rewrite lookup_app_r in Ed by lia.
      destruct (j - length alt) as [|[|?]]; cbn in Ed; [|done..].
      injection Ed as <-. done.
Qed.

Lemma rest_matches_at_main :
  match_here text (fun _ => true) [Whitespace; Lit "("; CaptureAnyPlus; Lit ")"]
             (length main)
  = Some (length text, [(length main + 2, length main + 2 + length alt)]).
Proof.
  cbn [match_here]. rewrite text_lookup_space. cbn [is_space].
  change (is_space " ") with true. cbv iota.
  rewrite text_lookup_paren. cbn [Ascii.eqb Bool.eqb]. cbv iota.
  replace (S (S (length main))) with (length main + 2) by lia.
  rewrite dot_run_alt.
  apply (backtrack_first _ _ (length alt)).
  - destruct alt; [done|]. cbn. lia.
  - rewrite text_lookup_tail, lookup_app_r by lia. rewrite Nat.sub_diag. cbn.
    do 2 f_equal. rewrite text_length. lia.
  - intros i Hi. replace i with (S (length alt)) by lia.
    rewrite text_lookup_tail. rewrite lookup_app_r by lia.
    by replace (S (length alt) - length alt) with 1 by lia.
Qed.

Lemma search_parentheses :
  re_search text parentheses_re
  = Some (ReMatch 0 (length text)
            [(0, length main); (length main + 2, length main + 2 + length alt)]).
Proof.
  assert (H : match_here text (fun _ => true) parentheses_re 0
              = Some (length text,
                      [(0, length main);
                       (length main + 2, length main + 2 + length alt)])).
  { unfold parentheses_re. rewrite match_here_capture, dot_run_start.
    apply (backtrack_first _ _ (length main)).
    - rewrite text_length. destruct main; [done|]. cbn. lia.
    - cbn [Nat.add]. by rewrite rest_matches_at_main.
    - intros i Hi. cbn [Nat.add]. rewrite rest_fails_later by lia. done. }
  unfold re_search. cbn [search_from]. by rewrite H.
Qed.

Lemma group_main (m : re_match) :
  m_groups m = [(0, length main); (length main + 2, length main + 2 + length alt)] ->
  group text m 1 = main /\ group text m 2 = alt.
Proof.
  intros Hm. unfold group. rewrite Hm. cbn [lookup list_lookup Nat.sub].
  unfold slice, text. split.
  - rewrite drop_0, Nat.sub_0_r. apply take_app_length.
  - rewrite drop_app_add. cbn [py list_ascii_of_string app drop]. rewrite drop_0.
    replace (length main + 2 + length alt - (length main + 2)) with (length alt) by lia.
    apply take_app_length.
Qed.

End ParenthesesSearch.

Lemma lower_app (s t : str) : lower (s ++ t) = lower s ++ lower t.
Proof. apply map_app. Qed.

Lemma no_linebreak_lower (s : str) : no_linebreak (lower s) = no_linebreak s.
Proof.
  unfold no_linebreak, lower. induction s as [|c s IH]; cbn; [done|].
  by rewrite is_linebreak_lower_char, IH.
Qed.

Lemma eqb_paren_lower_char (c : ascii) :
  Ascii.eqb (lower_char c) "(" = Ascii.eqb c "(".
Proof. each_char c. Qed.

Lemma has_space_paren_lower (s : str) : has_space_paren (lower s) = has_space_paren s.
Proof.
  induction s as [|c s IH]; [done|]. destruct s as [|d s]; [done|].
  cbn [lower map has_space_paren] in *.
  by rewrite is_space_lower_char, eqb_paren_lower_char, IH.
Qed.

Lemma generate_aliases_parenthesised (main alt : str) :
  plain_parts main alt = true ->
  _generate_aliases (main ++ py " (" ++ alt ++ py ")")
  = {[ lower (main ++ py " (" ++ alt ++ py ")"); strip (lower main); strip (lower alt) ]}.
Proof.
  unfold plain_parts. rewrite !andb_true_iff, !negb_true_iff, !bool_decide_eq_false.
  intros [[[[Hm Ha] Hml] Hal] Hplain].
  unfold _generate_aliases. rewrite !lower_app.
  change (lower (py " (")) with (py " ("). change (lower (py ")")) with (py ")").
  assert (Hm' : lower main <> []) by (by destruct main).
  assert (Ha' : lower alt <> []) by (by destruct alt).
  rewrite <- no_linebreak_lower in Hml, Hal. rewrite <- has_space_paren_lower in Hplain.
  rewrite (search_parentheses _ _ Hm' Ha' Hml Hal Hplain).
  by destruct (group_main (lower main) (lower alt)
                 (ReMatch 0 (length (lower main ++ py " (" ++ lower alt ++ py ")"))
                    [(0, length (lower main));
                     (length (lower main) + 2,
                      length (lower main) + 2 + length (lower alt))])
                 eq_refl) as [-> ->].
Qed.

(** C6.  The aliases of "Pertussis (Whooping Cough)" are exactly its
    lowercasing, "pertussis" and "whooping cough"; the lowercased term is
    always an alias; and for a term "<main> (<alt>)" whose parts are
    non-empty and on one line, with no whitespace-then-parenthesis inside
    <alt>, the aliases are exactly the lowercased term and the trimmed
    lowercased <main> and <alt>. *)
Theorem generate_aliases_complete :
  _generate_aliases (py "Pertussis (Whooping Cough)")
  = {[ py "pertussis (whooping cough)"; py "pertussis"; py "whooping cough" ]}
  /\ (forall term, lower term ∈ _generate_aliases term)
  /\ (forall main alt,
        plain_parts main alt = true ->
        _generate_aliases (main ++ py " (" ++ alt ++ py ")")
        = {[ lower (main ++ py " (" ++ alt ++ py ")");
             strip (lower main); strip (lower alt) ]}).
Proof.
  split; [|split].
  - exact (generate_aliases_parenthesised (py "Pertussis") (py "Whooping Cough") eq_refl).
  - intros term. unfold _generate_aliases.
    destruct (re_search _ _); set_solver.
  - exact generate_aliases_parenthesised.
Qed.

Lemma generate_aliases_complete_pertussis :
  plain_parts (py "Pertussis") (py "Whooping Cough") = true
  /\ _generate_aliases (py "Pertussis" ++ py " (" ++ py "Whooping Cough" ++ py ")")
     = {[ lower (py "Pertussis" ++ py " (" ++ py "Whooping Cough" ++ py ")");
          strip (lower (py "Pertussis")); strip (lower (py "Whooping Cough")) ]}.
Proof.
  split; [reflexivity|].
  exact (proj2 (proj2 generate_aliases_complete)
           (py "Pertussis") (py "Whooping Cough") eq_refl).
Defined.

(** C6, as first stated, fails for a nested parenthesis: the term
    "x (y (z))" is "x" followed by "(y (z))", but the pattern splits it at
    the last " (", so neither "x" nor "y (z)" is an alias.  It also fails
    for a line feed inside the parenthesis: the pattern does not match at
    all and the lowercased term is the only alias. *)
Lemma nested_parenthesis_aliases :
  py "x (y (z))" = py "x" ++ py " (" ++ py "y (z)" ++ py ")"
  /\ _generate_aliases (py "x (y (z))") = {[ py "x (y (z))"; py "x (y"; py "z)" ]}
  /\ (strip (lower (py "x")) ∉ _generate_aliases (py "x (y (z))"))
  /\ (strip (lower (py "y (z)")) ∉ _generate_aliases (py "x (y (z))"))
  /\ _generate_aliases (py "a" ++ py " (" ++ (py "b" ++ ["010"%char] ++ py "c") ++ py ")")
     = {[ py "a (b" ++ ["010"%char] ++ py "c)" ]}.
Proof.
  split; [reflexivity|].
  split; [|split; [|split]]; apply (bool_decide_unpack _); by vm_compute.
Qed.

(** ** Blank terms *)

Lemma blank_lower (term : str) : blank term = true -> lower term = term.
Proof.
  unfold blank, lower. induction term as [|c term IH]; cbn; [done|].
  intros [Hc Ht]%andb_true_iff. by rewrite lower_char_space, IH.
Qed.

Lemma blank_no_paren (term : str) : blank term = true -> "("%char ∉ term.
Proof.
  unfold blank. rewrite forallb_forall. intros Hall Hin.
  apply list_elem_of_In in Hin. by apply (space_not_paren _ (Hall _ Hin)).
Qed.

Lemma match_parentheses_paren (text : str) (accept : nat -> bool) (pos : nat)
    (r : nat * list (nat * nat)) :
  match_here text accept parentheses_re pos = Some r -> "("%char ∈ text.
Proof.
  unfold parentheses_re. rewrite match_here_capture.
  intros (j & _ & H)%backtrack_Some. cbn [match_here] in H.
  destruct (text !! (pos + j)) as [d|]; [|done].
  destruct (is_space d); [|done].
  destruct (text !! S (pos + j)) as [d'|] eqn:E; [|done].
  destruct (Ascii.eqb "(" d') eqn:Ed; [|done].
  apply Ascii.eqb_eq in Ed. subst d'. by eapply list_elem_of_lookup_2.
Qed.

Lemma search_from_None (text : str) (re : regex) (k s : nat) :
  (forall pos, match_here text (fun _ => true) re pos = None) ->
  search_from text re k s = None.
Proof.
  intros Hnone. revert s. induction k as [|k IH]; intros s; cbn; [done|].
  by rewrite Hnone.
Qed.

Lemma generate_aliases_blank (term : str) :
  blank term = true -> _generate_aliases term = {[ term ]}.
Proof.
  intros Hb. unfold _generate_aliases. rewrite (blank_lower term Hb).
  unfold re_search. rewrite search_from_None; [done|].
  intros pos. destruct (match_here _ _ _ _) as [r|] eqn:E; [|done].
  apply match_parentheses_paren in E. by apply blank_no_paren in E.
Qed.

(** C7.  For a term that is empty or holds whitespace only, the aliases are
    exactly the one-element set of the term itself; this is the set of the
    empty string only when the term is empty. *)
Theorem generate_aliases_of_blank (term : str) :
  blank term = true ->
  _generate_aliases term = {[ term ]}
  /\ (_generate_aliases term = {[ [] ]} <-> term = []).
Proof.
  intros Hb. rewrite (generate_aliases_blank term Hb). split; [done|].
  split.
  - intros H. assert (Hin : term ∈ ({[ [] ]} : gset str)) by (rewrite <- H; set_solver).
    by apply elem_of_singleton in Hin.
  - by intros ->.
Qed.

Lemma generate_aliases_of_blank_two_spaces :
  blank (py "  ") = true
  /\ _generate_aliases (py "  ") = {[ py "  " ]}
  /\ (_generate_aliases (py "  ") = {[ [] ]} <-> py "  " = []).
Proof.
  split; [reflexivity|]. exact (generate_aliases_of_blank (py "  ") eq_refl).
Defined.

(** C7, as first stated, fails for the term of one space: its only alias
    is that space, not the empty string. *)
Lemma single_space_alias :
  blank (py " ") = true
  /\ _generate_aliases (py " ") = {[ py " " ]}
  /\ _generate_aliases (py " ") <> {[ [] ]}.
Proof.
  split; [reflexivity|]. split.
  - by apply generate_aliases_blank.
  - rewrite generate_aliases_blank by done. intros H.
    assert (Hin : py " " ∈ ({[ [] ]} : gset str)) by (rewrite <- H; set_solver).
    by apply elem_of_singleton in Hin.
Qed.

(** ** Spans over non-empty phrases *)

(** Whatever the phrases are, [alias_found] is the text of the reported
    range, whose bounds are in order. *)
Lemma alias_found_is_slice (self : GlossaryService) (phrases : list str)
    (text : str) (t : found_term) (m : match_info) :
  t ∈ found_terms (find_and_define_phrases_in_text_enhanced self phrases text) ->
  m ∈ matches_in_text t ->
  alias_found m = slice text (location_start m) (location_end m)
  /\ location_start m <= location_end m.
Proof.
  intros Ht Hm.
  apply (find_enhanced_matches self text
           (fun m => alias_found m = slice text (location_start m) (location_end m)
                     /\ location_start m <= location_end m) phrases) with (t := t);
    [|done..].
  intros phrase s e _ Hse. split; [done|]. cbn.
  apply finditer_phrase in Hse as (_ & -> & _ & _). lia.
Qed.

(** X1.  When no known phrase is empty, every reported span is a non-empty
    range of the text and [alias_found] is the text of that range. *)
Lemma spans_well_formed (self : GlossaryService) (phrases : list str)
    (text : str) :
  [] ∉ phrases ->
  forall t m,
    t ∈ found_terms (find_and_define_phrases_in_text_enhanced self phrases text) ->
    m ∈ matches_in_text t ->
    lower (slice text (location_start m) (location_end m)) = lower (alias_found m)
    /\ location_start m < location_end m.
Proof.
  intros Hne t m Ht Hm.
  pose (P := fun m : match_info =>
               alias_found m = slice text (location_start m) (location_end m)
               /\ location_start m < location_end m).
  assert (HP : P m).
  { apply (find_enhanced_matches self text P phrases) with (t := t); [|done..].
    intros phrase s e Hin Hse. split; [done|]. cbn.
    apply finditer_phrase in Hse as (_ & -> & _ & _).
    destruct phrase; [done|]. cbn. lia. }
  destruct HP as [-> ?]. done.
Qed.

Lemma spans_well_formed_overlap_text :
([] ∉ [py "disease"; py "chronic disease"])
  /\ forall self t m,
       t ∈ found_terms (find_and_define_phrases_in_text_enhanced self [py "disease"; py "chronic disease"]
                                      overlap_text) ->
       m ∈ matches_in_text t ->
       lower (slice overlap_text (location_start m) (location_end m))
       = lower (alias_found m)
       /\ location_start m < location_end m.
Proof.
  assert (H : [] ∉ [py "disease"; py "chronic disease"]).
  { intros Hin. repeat (apply elem_of_cons in Hin as [Hin|Hin]; [discriminate|]).
    by apply elem_of_nil in Hin. }
  split; [exact H|]. intros self.
  exact (spans_well_formed self [py "disease"; py "chronic disease"] overlap_text H).
Defined.

(** ** What the summary counts *)

Module PLSSummary.
Import PLS.

Lemma recommended_features_distinct : NoDup recommended_features.
Proof. apply (bool_decide_unpack _). by vm_compute. Qed.














End PLSSummary.

(** ** The enhanced matcher: grouping, overlaps and coverage *)

Lemma found_terms_enhanced_state (self : GlossaryService) (phrases : list str) (text : str) :
  found_terms (find_and_define_phrases_in_text_enhanced self phrases text)
  = (enhanced_state self phrases text).1.*2.
Proof. reflexivity. Qed.

Lemma overlaps_existsb (s e : nat) (ranges : list (nat * nat)) :
  overlaps s e ranges = existsb (overlap (s, e)) ranges.
Proof.
  unfold overlaps. induction ranges as [|[a b] ranges IH]; [done|].
  cbn [existsb]. by rewrite IH.
Qed.

Lemma overlap_sym (a b : nat * nat) : overlap a b = overlap b a.
Proof. unfold overlap. apply andb_comm. Qed.

Lemma has_key_elem_of (k : str) (d : term_dict) : has_key k d = true <-> k ∈ d.*1.
Proof.
  unfold has_key. induction d as [|[k' t] d IH]; cbn.
  - split; [done|]. by intros ?%elem_of_nil.
  - rewrite orb_true_iff, IH, elem_of_cons, bool_decide_eq_true.
    split; (intros [H|H]; [left; congruence|by right]).
Qed.

Lemma update_key_keys (k : str) (f : found_term -> found_term) (d : term_dict) :
  (update_key k f d).*1 = d.*1.
Proof.
  unfold update_key. induction d as [|[k' t] d IH]; cbn; [done|].
  rewrite IH. by case_bool_decide.
Qed.

Lemma elem_of_append_new {A : Type} `{EqDecision A} (x y : A) (l : list A) :
  y ∈ append_new x l <-> y = x \/ y ∈ l.
Proof.
  unfold append_new. case_bool_decide as Hx.
  - split; [by right|]. by intros [->|?].
  - rewrite elem_of_app, list_elem_of_singleton. tauto.
Qed.

Lemma append_new_NoDup {A : Type} `{EqDecision A} (x : A) (l : list A) :
  NoDup l -> NoDup (append_new x l).
Proof.
  intros Hl. unfold append_new. case_bool_decide as Hx; [done|].
  apply NoDup_app. split; [done|]. split.
  - intros y Hy ->%list_elem_of_singleton. done.
  - apply NoDup_singleton.
Qed.

Lemma append_new_nonempty {A : Type} `{EqDecision A} (x : A) (l : list A) :
  append_new x l <> [].
Proof.
  unfold append_new. case_bool_decide as Hx.
  - intros ->. by apply elem_of_nil in Hx.
  - by destruct l.
Qed.

(** The dict after one definition has been recorded: the dict before, with
    the entry of the main term created if missing, and that entry updated. *)
Lemma record_definition_unfold (text : str) (s e : nat) (found : term_dict)
    (d : glossary_entry) :
  record_definition text s e found d
  = update_key (main_term d)
      (fun t => FoundTerm (ft_main_term t)
                  (append_new (DefInfo (plain_alternative d) (source d)) (definitions t))
                  (append_new (MatchInfo (slice text s e) s e) (matches_in_text t)))
      (if has_key (main_term d) found then found
       else found ++ [(main_term d, FoundTerm (main_term d) [] [])]).
Proof. reflexivity. Qed.

Lemma record_definition_keys (text : str) (s e : nat) (found : term_dict)
    (d : glossary_entry) :
  (record_definition text s e found d).*1
  = if has_key (main_term d) found then found.*1 else found.*1 ++ [main_term d].
Proof.
  rewrite record_definition_unfold, update_key_keys.
  destruct (has_key _ _); [done|]. by rewrite fmap_app.
Qed.

Lemma record_definition_NoDup_keys (text : str) (s e : nat) (found : term_dict)
    (d : glossary_entry) :
  NoDup found.*1 -> NoDup (record_definition text s e found d).*1.
Proof.
  intros Hnd. rewrite record_definition_keys.
  destruct (has_key _ _) eqn:E; [done|].
  apply NoDup_app. split; [done|]. split; [|apply NoDup_singleton].
  intros k Hk ->%list_elem_of_singleton.
  apply has_key_elem_of in Hk. congruence.
Qed.

(** A property of the entries that new entries have and updates keep. *)
Lemma record_definition_entries (Q : str -> found_term -> Prop) (text : str) (s e : nat)
    (found : term_dict) (d : glossary_entry) :
  (forall t, (t = FoundTerm (main_term d) [] [] \/ Q (main_term d) t) ->
     Q (main_term d)
       (FoundTerm (ft_main_term t)
          (append_new (DefInfo (plain_alternative d) (source d)) (definitions t))
          (append_new (MatchInfo (slice text s e) s e) (matches_in_text t)))) ->
  Forall (fun kv => Q kv.1 kv.2) found ->
  Forall (fun kv => Q kv.1 kv.2) (record_definition text s e found d).
Proof.
  intros Hupd Hfound. rewrite record_definition_unfold. unfold update_key.
  apply Forall_map.
  assert (H : Forall (fun kv => kv.2 = FoundTerm (main_term d) [] [] /\ kv.1 = main_term d
                                \/ Q kv.1 kv.2)
                (if has_key (main_term d) found then found
                 else found ++ [(main_term d, FoundTerm (main_term d) [] [])])).
  { destruct (has_key _ _).
    - eapply Forall_impl; [exact Hfound|]. intros kv ?. by right.
    - apply Forall_app. split.
      + eapply Forall_impl; [exact Hfound|]. intros kv ?. by right.
      + constructor; [|done]. by left. }
  eapply Forall_impl; [exact H|]. intros [k t] Hkt. cbn in *.
  case_bool_decide as Hk; cbn.
  - subst k. apply Hupd. destruct Hkt as [[? _]|?]; [by left|by right].
  - destruct Hkt as [[_ ?]|?]; [congruence|done].
Qed.

Lemma record_definition_well_grouped (text : str) (s e : nat) (found : term_dict)
    (d : glossary_entry) :
  well_grouped found -> well_grouped (record_definition text s e found d).
Proof.
  intros [Hkeys Hentries]. split; [by apply record_definition_NoDup_keys|].
  apply (record_definition_entries
           (fun k t => ft_main_term t = k
                       /\ NoDup (definitions t) /\ NoDup (matches_in_text t)
                       /\ definitions t <> [] /\ matches_in_text t <> [])); [|done].
  intros t [->|(Hk & Hd & Hm & _)]; cbn.
  - split; [done|]. split; [apply append_new_NoDup, NoDup_nil_2|].
    split; [apply append_new_NoDup, NoDup_nil_2|]. split; apply append_new_nonempty.
  - split; [done|]. split; [by apply append_new_NoDup|].
    split; [by apply append_new_NoDup|]. split; apply append_new_nonempty.
Qed.

Lemma enhanced_state_well_grouped (self : GlossaryService) (phrases : list str) (text : str) :
  well_grouped (enhanced_state self phrases text).1.
Proof.
  unfold enhanced_state.
  apply (foldl_invariant (fun st => well_grouped st.1)).
  - intros st phrase _ Hst. unfold scan_phrase.
    apply (foldl_invariant (fun st => well_grouped st.1)); [|done].
    intros st' [s e] _ Hst'. unfold record_match.
    destruct (overlaps s e st'.2); [done|]. cbn [fst].
    apply (foldl_invariant well_grouped); [|done].
    intros found d _. apply record_definition_well_grouped.
  - split; [apply NoDup_nil_2|constructor].
Qed.

(** X3.  The found terms are grouped by main term: no two of them share a
    main term, the reported count is their number, and every found term
    holds at least one definition and one span and repeats none. *)
Theorem found_terms_grouped (self : GlossaryService) (phrases : list str) (text : str) :
  let r := find_and_define_phrases_in_text_enhanced self phrases text in
  NoDup (ft_main_term <$> found_terms r)
  /\ total_unique_phrases_found (summary_of r) = length (found_terms r)
  /\ Forall (fun t => NoDup (definitions t) /\ NoDup (matches_in_text t)
                      /\ definitions t <> [] /\ matches_in_text t <> [])
            (found_terms r).
Proof.
  cbv zeta. rewrite found_terms_enhanced_state.
  destruct (enhanced_state_well_grouped self phrases text) as [Hkeys Hentries].
  assert (Hnames : ft_main_term <$> (enhanced_state self phrases text).1.*2
                   = (enhanced_state self phrases text).1.*1).
  { clear Hkeys. induction Hentries as [|[k t] l (Hk & _) _ IH]; [done|].
    cbn in *. by rewrite Hk, IH. }
  split; [by rewrite Hnames|]. split.
  - cbn. by rewrite length_fmap.
  - apply Forall_fmap. eapply Forall_impl; [exact Hentries|].
    intros [k t]. cbn. tauto.
Qed.

Lemma all_matches_impl (P Q : match_info -> Prop) (d : term_dict) :
  (forall m, P m -> Q m) -> all_matches P d -> all_matches Q d.
Proof.
  intros HPQ Hd. unfold all_matches in *.
  eapply Forall_impl; [exact Hd|]. intros kv Hkv. cbn in Hkv.
  eapply Forall_impl; [exact Hkv|]. exact HPQ.
Qed.

Lemma foldl_record_definition_matches (P : match_info -> Prop) (text : str) (s e : nat)
    (found : term_dict) (definitions : list glossary_entry) :
  P (MatchInfo (slice text s e) s e) ->
  all_matches P found ->
  all_matches P (foldl (record_definition text s e) found definitions).
Proof.
  intros Hm. apply (foldl_invariant (all_matches P)).
  intros found' d _. by apply record_definition_matches.
Qed.

Lemma disjoint_ranges_snoc (ranges : list (nat * nat)) (s e : nat) :
  disjoint_ranges ranges -> overlaps s e ranges = false ->
  disjoint_ranges (ranges ++ [(s, e)]).
Proof.
  intros Hd Hno i j r1 r2 Hij Hi Hj.
  rewrite overlaps_existsb in Hno.
  assert (Hall : forall r, r ∈ ranges -> overlap (s, e) r = false).
  { intros r Hr. destruct (overlap (s, e) r) eqn:E; [|done].
    assert (existsb (overlap (s, e)) ranges = true); [|congruence].
    apply existsb_exists. exists r. split; [by apply list_elem_of_In|done]. }
  destruct (decide (j < length ranges)) as [Hlt|Hge].
  - rewrite lookup_app_l in Hi, Hj by lia. exact (Hd i j r1 r2 Hij Hi Hj).
  - assert (i < length ranges).
    { apply lookup_lt_Some in Hj. rewrite length_app in Hj. cbn in Hj. lia. }
    rewrite lookup_app_l in Hi by lia. rewrite lookup_app_r in Hj by lia.
    destruct (j - length ranges) as [|n]; cbn in Hj; [|by destruct n].
    injection Hj as <-. rewrite overlap_sym. apply Hall.
    by eapply list_elem_of_lookup_2.
Qed.

(** The invariant of the loops on the ranges: the accepted ranges are
    pairwise disjoint and every recorded span is one of them. *)
Lemma enhanced_state_ranges (self : GlossaryService) (phrases : list str) (text : str) :
  disjoint_ranges (enhanced_state self phrases text).2
  /\ all_matches (fun m => span_of m ∈ (enhanced_state self phrases text).2)
                 (enhanced_state self phrases text).1.
Proof.
  unfold enhanced_state.
  apply (foldl_invariant
           (fun st => disjoint_ranges st.2
                      /\ all_matches (fun m => span_of m ∈ st.2) st.1)).
  - intros st phrase _ Hst. unfold scan_phrase.
    apply (foldl_invariant
             (fun st => disjoint_ranges st.2
                        /\ all_matches (fun m => span_of m ∈ st.2) st.1)); [|done].
    intros [found ranges] [s e] _ [Hd Hm]. unfold record_match. cbn [fst snd] in *.
    destruct (overlaps s e ranges) eqn:E; [done|]. cbn [fst snd]. split.
    + by apply disjoint_ranges_snoc.
    + apply foldl_record_definition_matches.
      * apply elem_of_app. right. by apply list_elem_of_singleton.
      * eapply all_matches_impl; [|exact Hm]. intros m Hin.
        apply elem_of_app. by left.
  - split; [|constructor]. intros i j r1 r2 _ Hi. cbn in Hi. by rewrite lookup_nil in Hi.
Qed.

Lemma found_terms_matches (self : GlossaryService) (phrases : list str) (text : str)
    (P : match_info -> Prop) (t : found_term) (m : match_info) :
  all_matches P (enhanced_state self phrases text).1 ->
  t ∈ found_terms (find_and_define_phrases_in_text_enhanced self phrases text) ->
  m ∈ matches_in_text t ->
  P m.
Proof.
  intros Hall Ht Hm. rewrite found_terms_enhanced_state in Ht.
  apply list_elem_of_fmap in Ht as ([k t'] & -> & Hkt).
  unfold all_matches in Hall. rewrite Forall_forall in Hall.
  specialize (Hall _ Hkt). rewrite Forall_forall in Hall. by apply Hall.
Qed.

(** X4.  No two reported spans overlap: two spans of the result, under the
    same or different main terms, have the same range or ranges that the
    matcher's overlap test tells apart. *)
Theorem reported_spans_never_overlap (self : GlossaryService) (phrases : list str)
    (text : str) (t1 t2 : found_term) (m1 m2 : match_info) :
  t1 ∈ found_terms (find_and_define_phrases_in_text_enhanced self phrases text) ->
  m1 ∈ matches_in_text t1 ->
  t2 ∈ found_terms (find_and_define_phrases_in_text_enhanced self phrases text) ->
  m2 ∈ matches_in_text t2 ->
  span_of m1 = span_of m2 \/ overlap (span_of m1) (span_of m2) = false.
Proof.
  intros Ht1 Hm1 Ht2 Hm2.
  destruct (enhanced_state_ranges self phrases text) as [Hd Hall].
  pose proof (found_terms_matches _ _ _ _ _ _ Hall Ht1 Hm1) as H1.
  pose proof (found_terms_matches _ _ _ _ _ _ Hall Ht2 Hm2) as H2.
  cbn in H1, H2.
  apply list_elem_of_lookup in H1 as [i Hi]. apply list_elem_of_lookup in H2 as [j Hj].
  destruct (lt_eq_lt_dec i j) as [[Hlt|Heq]|Hgt].
  - right. exact (Hd i j _ _ Hlt Hi Hj).
  - left. congruence.
  - right. rewrite overlap_sym. exact (Hd j i _ _ Hgt Hj Hi).
Qed.

Lemma overlap_text_found_terms :
  found_terms (find_and_define_phrases_in_text_enhanced disease_service
                 [py "disease"; py "chronic disease"] overlap_text)
  = overlap_report.
Proof. vm_compute. reflexivity. Qed.

Lemma reported_spans_never_overlap_overlap_text :
  span_of (MatchInfo (py "chronic disease") 5 20) = span_of (MatchInfo (py "disease") 37 44)
  \/ overlap (span_of (MatchInfo (py "chronic disease") 5 20))
             (span_of (MatchInfo (py "disease") 37 44)) = false.
Proof.
  apply (reported_spans_never_overlap disease_service
           [py "disease"; py "chronic disease"] overlap_text
           (FoundTerm (py "chronic disease")
              [DefInfo (py "long-lasting illness") (py "core")]
              [MatchInfo (py "chronic disease") 5 20])
           (FoundTerm (py "disease")
              [DefInfo (py "illness") (py "core")]
              [MatchInfo (py "disease") 37 44]));
    rewrite ?overlap_text_found_terms; unfold overlap_report; cbn [matches_in_text];
    repeat constructor.
Defined.

(** ** The enhanced matcher: every occurrence is covered *)

Lemma foldl_establish {S A : Type} (Q : S -> Prop) (f : S -> A -> S) (l : list A)
    (x : A) (st : S) :
  x ∈ l ->
  (forall st, Q (f st x)) ->
  (forall st y, Q st -> Q (f st y)) ->
  Q (foldl f st l).
Proof.
  intros Hx Hest Hkeep. revert st. induction l as [|y l IH]; intros st.
  - by apply elem_of_nil in Hx.
  - cbn [foldl]. apply elem_of_cons in Hx as [->|Hx].
    + apply (foldl_invariant Q); [|apply Hest]. intros st' z _. apply Hkeep.
    + by apply IH.
Qed.

Lemma elem_of_update_key (k : str) (f : found_term -> found_term) (d : term_dict)
    (kv : str * found_term) :
  kv ∈ d ->
  (if bool_decide (kv.1 = k) then (kv.1, f kv.2) else kv) ∈ update_key k f d.
Proof.
  intros Hkv. unfold update_key. apply list_elem_of_In.
  refine (in_map _ d kv _). by apply list_elem_of_In.
Qed.

Lemma record_definition_reported_mono (text : str) (s e : nat) (found : term_dict)
    (d : glossary_entry) (r : nat * nat) :
  reported found r -> reported (record_definition text s e found d) r.
Proof.
  intros (kv & m & Hkv & Hm & Hr). rewrite record_definition_unfold.
  assert (Hkv' : kv ∈ (if has_key (main_term d) found then found
                       else found ++ [(main_term d, FoundTerm (main_term d) [] [])])).
  { destruct (has_key _ _); [done|]. apply elem_of_app. by left. }
  eapply elem_of_update_key in Hkv'. eexists _, m. split; [exact Hkv'|].
  split; [|done]. case_bool_decide; [|done]. cbn.
  apply elem_of_append_new. by right.
Qed.

Lemma record_definition_reports (text : str) (s e : nat) (found : term_dict)
    (d : glossary_entry) :
  reported (record_definition text s e found d) (s, e).
Proof.
  rewrite record_definition_unfold.
  set (found' := if has_key (main_term d) found then found
                 else found ++ [(main_term d, FoundTerm (main_term d) [] [])]).
  assert (Hk : exists t, (main_term d, t) ∈ found').
  { unfold found'. destruct (has_key _ _) eqn:E.
    - apply has_key_elem_of, list_elem_of_fmap in E as ([k t] & Hk & Hin).
      cbn in Hk. subst k. by exists t.
    - eexists. apply elem_of_app. right. by apply list_elem_of_singleton. }
  destruct Hk as [t Ht]. eapply elem_of_update_key in Ht.
  eexists _, (MatchInfo (slice text s e) s e). split; [exact Ht|].
  cbn [fst snd]. rewrite bool_decide_eq_true_2 by done. cbn.
  split; [|done]. apply elem_of_append_new. by left.
Qed.

Lemma foldl_record_definition_reports (text : str) (s e : nat) (found : term_dict)
    (d : glossary_entry) (definitions : list glossary_entry) :
  reported (foldl (record_definition text s e) found (d :: definitions)) (s, e).
Proof.
  cbn [foldl]. apply (foldl_invariant (fun found => reported found (s, e))).
  - intros found' d' _. apply record_definition_reported_mono.
  - apply record_definition_reports.
Qed.

Lemma index_defines_lookup (index : gmap str (list glossary_entry)) (phrases : list str)
    (phrase : str) :
  index_defines index phrases = true -> phrase ∈ phrases ->
  exists d definitions, default [] (index !! phrase) = d :: definitions.
Proof.
  unfold index_defines. rewrite forallb_forall. intros Hall Hin.
  specialize (Hall phrase (proj1 (list_elem_of_In _ _) Hin)).
  destruct (index !! phrase) as [[|d l]|]; try discriminate. by exists d, l.
Qed.

(** With an entry for every phrase, every accepted range is reported. *)
Lemma enhanced_state_reports (self : GlossaryService) (phrases : list str) (text : str) :
  index_defines (phrase_index self) phrases = true ->
  forall r, r ∈ (enhanced_state self phrases text).2 ->
            reported (enhanced_state self phrases text).1 r.
Proof.
  intros Hdef. unfold enhanced_state.
  apply (foldl_invariant (fun st => forall r, r ∈ st.2 -> reported st.1 r)).
  - intros st phrase Hphrase Hst. unfold scan_phrase.
    rewrite sorted_by_len_desc_perm in Hphrase.
    destruct (index_defines_lookup _ _ _ Hdef Hphrase) as (d & ds & Hds).
    apply (foldl_invariant (fun st => forall r, r ∈ st.2 -> reported st.1 r)); [|done].
    intros [found ranges] [s e] _ Hinv. unfold record_match. cbn [fst snd] in *.
    destruct (overlaps s e ranges); [done|]. cbn [fst snd]. rewrite Hds.
    intros r [Hr|Hr]%elem_of_app.
    + apply (foldl_invariant (fun found => reported found r)); [|by apply Hinv].
      intros found' d' _. apply record_definition_reported_mono.
    + apply list_elem_of_singleton in Hr. subst r.
      apply foldl_record_definition_reports.
  - intros r Hr. by apply elem_of_nil in Hr.
Qed.

Lemma record_match_ranges_mono (index : gmap str (list glossary_entry)) (text phrase : str)
    (st : term_dict * list (nat * nat)) (m r : nat * nat) :
  covered st.2 r -> covered (record_match index text phrase st m).2 r.
Proof.
  intros (r' & Hr' & Hcov). destruct m as [s e]. unfold record_match.
  destruct (overlaps s e st.2); [by exists r'|]. cbn [snd].
  exists r'. split; [|done]. apply elem_of_app. by left.
Qed.

Lemma record_match_covers (index : gmap str (list glossary_entry)) (text phrase : str)
    (st : term_dict * list (nat * nat)) (m : nat * nat) :
  covered (record_match index text phrase st m).2 m.
Proof.
  destruct m as [s e]. unfold record_match.
  destruct (overlaps s e st.2) eqn:E.
  - rewrite overlaps_existsb in E. apply existsb_exists in E as (r' & Hin & Hov).
    exists r'. split; [by apply list_elem_of_In|by right].
  - cbn [snd]. exists (s, e). split; [|by left].
    apply elem_of_app. right. by apply list_elem_of_singleton.
Qed.

Lemma scan_phrase_ranges_mono (index : gmap str (list glossary_entry))
    (text text_lower phrase : str) (st : term_dict * list (nat * nat)) (r : nat * nat) :
  covered st.2 r -> covered (scan_phrase index text text_lower st phrase).2 r.
Proof.
  unfold scan_phrase. apply (foldl_invariant (fun st => covered st.2 r)).
  intros st' m _. apply record_match_ranges_mono.
Qed.

Lemma enhanced_state_covers (self : GlossaryService) (phrases : list str) (text phrase : str)
    (r : nat * nat) :
  phrase ∈ phrases ->
  r ∈ finditer (lower text) (phrase_pattern phrase) ->
  covered (enhanced_state self phrases text).2 r.
Proof.
  intros Hphrase Hr. unfold enhanced_state.
  apply (foldl_establish (fun st => covered st.2 r) _ _ phrase).
  - by rewrite sorted_by_len_desc_perm.
  - intros st. unfold scan_phrase.
    apply (foldl_establish (fun st => covered st.2 r) _ _ r); [done| |].
    + intros st'. apply record_match_covers.
    + intros st' m. apply record_match_ranges_mono.
  - intros st phrase'. apply scan_phrase_ranges_mono.
Qed.

(** X5.  When the index holds an entry for every known phrase, every
    whole-word occurrence of a known phrase in the lowercased text is
    covered by the result: some reported span has that very range or
    overlaps it. *)
Theorem occurrences_covered (self : GlossaryService) (phrases : list str)
    (text phrase : str) (s e : nat) :
  index_defines (phrase_index self) phrases = true ->
  phrase ∈ phrases ->
  (s, e) ∈ finditer (lower text) (phrase_pattern phrase) ->
  exists t m,
    t ∈ found_terms (find_and_define_phrases_in_text_enhanced self phrases text)
    /\ m ∈ matches_in_text t
    /\ (span_of m = (s, e) \/ overlap (s, e) (span_of m) = true).
Proof.
  intros Hdef Hphrase Hse.
  destruct (enhanced_state_covers self phrases text phrase (s, e) Hphrase Hse)
    as (r' & Hr' & Hcov).
  destruct (enhanced_state_reports self phrases text Hdef r' Hr')
    as ([k t] & m & Hkt & Hm & Hspan).
  exists t, m. split; [|split; [done|]].
  - rewrite found_terms_enhanced_state. apply list_elem_of_fmap.
    by exists (k, t).
  - rewrite Hspan. destruct Hcov as [->|Hov]; [by left|by right].
Qed.

(** The inner "disease" of "chronic disease" is covered by the longer
    span. *)
Lemma occurrences_covered_inner_disease :
  exists t m,
    t ∈ found_terms (find_and_define_phrases_in_text_enhanced disease_service
                       [py "disease"; py "chronic disease"] overlap_text)
    /\ m ∈ matches_in_text t
    /\ (span_of m = (13, 20) \/ overlap (13, 20) (span_of m) = true).
Proof.
  apply (occurrences_covered disease_service [py "disease"; py "chronic disease"]
           overlap_text (py "disease") 13 20).
  - by vm_compute.
  - by left.
  - assert (E : finditer (lower overlap_text) (phrase_pattern (py "disease"))
                = [(13, 20); (37, 44)]) by (by vm_compute).
    rewrite E. by left.
Defined.

(** ** The enhanced matcher: where the definitions come from *)

(** X6.  Every definition reported under a main term is the plain
    alternative and the source of a glossary entry of that main term,
    indexed under a known phrase that occurs as a whole word in the
    lowercased text. *)
Theorem definitions_from_index (self : GlossaryService) (phrases : list str)
    (text : str) (t : found_term) (definition : def_info) :
  t ∈ found_terms (find_and_define_phrases_in_text_enhanced self phrases text) ->
  definition ∈ definitions t ->
  exists phrase d s e,
    phrase ∈ phrases
    /\ d ∈ default [] (phrase_index self !! phrase)
    /\ main_term d = ft_main_term t
    /\ definition = DefInfo (plain_alternative d) (source d)
    /\ (s, e) ∈ finditer (lower text) (phrase_pattern phrase).
Proof.
  intros Ht Hdef.
  pose (R := fun (k : str) (di : def_info) =>
               exists phrase d s e,
                 phrase ∈ phrases
                 /\ d ∈ default [] (phrase_index self !! phrase)
                 /\ main_term d = k
                 /\ di = DefInfo (plain_alternative d) (source d)
                 /\ (s, e) ∈ finditer (lower text) (phrase_pattern phrase)).
  pose (Q := fun (k : str) (t : found_term) =>
               ft_main_term t = k /\ Forall (R k) (definitions t)).
  assert (Hinv : Forall (fun kv => Q kv.1 kv.2) (enhanced_state self phrases text).1).
  { unfold enhanced_state.
    apply (foldl_invariant (fun st => Forall (fun kv => Q kv.1 kv.2) st.1)); [|constructor].
    intros st phrase Hphrase Hst. rewrite sorted_by_len_desc_perm in Hphrase.
    unfold scan_phrase.
    apply (foldl_invariant (fun st => Forall (fun kv => Q kv.1 kv.2) st.1)); [|done].
    intros [found ranges] [s e] Hse Hfound. unfold record_match. cbn [fst snd] in *.
    destruct (overlaps s e ranges); [done|]. cbn [fst].
    apply (foldl_invariant (Forall (fun kv => Q kv.1 kv.2))); [|done].
    intros found' d Hd Hfound'. apply record_definition_entries; [|done].
    intros t' Ht'. unfold Q. cbn [ft_main_term definitions].
    assert (Hnew : R (main_term d) (DefInfo (plain_alternative d) (source d))).
    { by exists phrase, d, s, e. }
    destruct Ht' as [->|[Hk HR]]; cbn.
    - split; [done|]. unfold append_new. cbn. by constructor.
    - split; [done|]. apply Forall_forall. intros di [->|Hdi]%elem_of_append_new; [done|].
      rewrite Forall_forall in HR. by apply HR. }
  rewrite found_terms_enhanced_state in Ht.
  apply list_elem_of_fmap in Ht as ([k t'] & -> & Hkt).
  rewrite Forall_forall in Hinv. destruct (Hinv _ Hkt) as [Hk HR]. cbn in *.
  rewrite Forall_forall in HR. subst k. by apply HR.
Qed.

Lemma definitions_from_index_overlap_text :
  exists phrase d s e,
    phrase ∈ [py "disease"; py "chronic disease"]
    /\ d ∈ default [] (phrase_index disease_service !! phrase)
    /\ main_term d = py "disease"
    /\ DefInfo (py "illness") (py "core") = DefInfo (plain_alternative d) (source d)
    /\ (s, e) ∈ finditer (lower overlap_text) (phrase_pattern phrase).
Proof.
  apply (definitions_from_index disease_service [py "disease"; py "chronic disease"]
           overlap_text
           (FoundTerm (py "disease")
              [DefInfo (py "illness") (py "core")]
              [MatchInfo (py "disease") 37 44])).
  - rewrite overlap_text_found_terms. unfold overlap_report. right. by left.
  - by left.
Defined.

(** ** The index build: agreement of index and phrase set *)

Lemma lookup_index_appends (d : glossary_entry) (index : gmap str (list glossary_entry))
    (aliases : gset str) (a : str) :
  (a ∈ aliases ->
   set_fold (index_append d) index aliases !! a = Some (default [] (index !! a) ++ [d]))
  /\ ((a ∉ aliases) -> set_fold (index_append d) index aliases !! a = index !! a).
Proof.
  apply (set_fold_ind_L
           (fun r X => (a ∈ X -> r !! a = Some (default [] (index !! a) ++ [d]))
                       /\ ((a ∉ X) -> r !! a = index !! a))).
  - split; [|done]. intros H. by apply not_elem_of_empty in H.
  - intros x X r Hx [IHin IHnin]. unfold index_append.
    destruct (decide (x = a)) as [->|Hne].
    + rewrite lookup_insert_eq. split.
      * intros _. by rewrite (IHnin Hx).
      * intros Hnin. exfalso. apply Hnin, elem_of_union. left. by apply elem_of_singleton.
    + rewrite lookup_insert_ne by done. split.
      * intros [Ha|Ha]%elem_of_union; [|by apply IHin].
        apply elem_of_singleton in Ha. congruence.
      * intros Hnin. apply IHnin. intros Ha. apply Hnin, elem_of_union. by right.
Qed.

Lemma index_entry_consistent (source_name : str) (svc svc' : GlossaryService)
    (e : raw_entry) :
  index_consistent svc -> index_entry source_name svc e = Some svc' ->
  index_consistent svc'.
Proof.
  intros [Hdom Hentries]. unfold index_entry.
  destruct (raw_term e) as [[|c term]|]; try (by intros [= <-]).
  destruct (raw_plain_alternative e) as [alt|]; [|discriminate].
  intros [= <-]. split; cbn [phrase_index all_known_phrases].
  - by rewrite dom_index_appends, Hdom.
  - intros alias entries.
    destruct (lookup_index_appends (GlossaryEntry (c :: term) alt source_name) (phrase_index svc)
                (_generate_aliases (c :: term)) alias) as [Hyes Hno].
    destruct (decide (alias ∈ _generate_aliases (c :: term))) as [Hin|Hnin];
      [rewrite (Hyes Hin)|rewrite (Hno Hnin); apply Hentries].
    intros [= <-]. split; [by destruct (default [] _)|].
    apply Forall_app. split.
    + destruct (phrase_index svc !! alias) as [l|] eqn:E; [|constructor].
      by apply (Hentries alias l).
    + constructor; [|constructor]. by split.
Qed.

Lemma index_file_consistent (svc svc' : GlossaryService) (file : glossary_file) :
  index_consistent svc -> index_file svc file = Some svc' -> index_consistent svc'.
Proof.
  intros Hinv. destruct file as [filename content]. unfold index_file.
  destruct (endswith filename (py ".json")); [|by intros [= <-]].
  destruct content as [data|]; [|discriminate].
  apply for_each_invariant; [|done]. intros ???. apply index_entry_consistent.
Qed.

(** X7.  When the build completes, the keys of the index are exactly the
    known phrases, every key holds at least one entry, and every entry
    stored under an alias has a non-empty main term of which that alias is
    one of the generated aliases. *)
Theorem built_index_consistent (glossaries_dir : option (list glossary_file))
    (svc : GlossaryService) :
  new_service glossaries_dir = Some svc ->
  dom (phrase_index svc) = all_known_phrases svc
  /\ forall alias entries,
       phrase_index svc !! alias = Some entries ->
       entries <> []
       /\ Forall (fun d => main_term d <> [] /\ alias ∈ _generate_aliases (main_term d))
                 entries.
Proof.
  intros Hnew. change (index_consistent svc).
  unfold new_service, _load_and_index in Hnew.
  destruct glossaries_dir as [files|]; [|discriminate].
  revert Hnew. apply for_each_invariant.
  - intros ???. apply index_file_consistent.
  - split; [apply dom_empty_L|]. intros alias entries H.
    cbn in H. by rewrite lookup_empty in H.
Qed.

Lemma built_index_consistent_disease :
  dom (phrase_index disease_service) = all_known_phrases disease_service
  /\ forall alias entries,
       phrase_index disease_service !! alias = Some entries ->
       entries <> []
       /\ Forall (fun d => main_term d <> [] /\ alias ∈ _generate_aliases (main_term d))
                 entries.
Proof.
  apply (built_index_consistent disease_dir). by vm_compute.
Defined.

(** ** The index build: what it reads and when it fails *)

Lemma index_entry_skipped (source_name : str) (svc : GlossaryService) (e : raw_entry) :
  has_term e = false -> index_entry source_name svc e = Some svc.
Proof.
  unfold has_term, index_entry. by destruct (raw_term e) as [[|c term]|].
Qed.

Lemma for_each_entries_with_term (source_name : str) (svc : GlossaryService)
    (data : list raw_entry) :
  for_each (index_entry source_name) svc (filter (fun e => has_term e = true) data)
  = for_each (index_entry source_name) svc data.
Proof.
  revert svc. induction data as [|e data IH]; intros svc; [done|].
  destruct (has_term e) eqn:E.
  - rewrite filter_cons_True by done. cbn [for_each].
    destruct (index_entry source_name svc e); [apply IH|done].
  - rewrite filter_cons_False by congruence. cbn [for_each].
    rewrite index_entry_skipped by done. apply IH.
Qed.

(** X8.  The build reads only the files whose name ends in ".json" and, in
    them, only the records with a non-empty term: leaving out every other
    file and record changes neither the outcome nor the service built. *)
Theorem build_reads_relevant_files (svc : GlossaryService) (files : list glossary_file) :
  _load_and_index svc (Some (relevant_files files)) = _load_and_index svc (Some files).
Proof.
  unfold _load_and_index, relevant_files. revert svc.
  induction files as [|[filename content] files IH]; intros svc; [done|].
  destruct (endswith filename (py ".json")) eqn:E.
  - rewrite filter_cons_True by done. cbn [fmap list_fmap for_each fst snd index_file].
    rewrite E. destruct content as [data|]; cbn [fmap option_fmap option_map]; [|done].
    rewrite for_each_entries_with_term.
    destruct (for_each _ svc data); [apply IH|done].
  - rewrite filter_cons_False by (cbn [fst]; congruence). cbn [for_each index_file].
    rewrite E. apply IH.
Qed.

Lemma index_entry_None (source_name : str) (svc : GlossaryService) (e : raw_entry) :
  index_entry source_name svc e = None <-> entry_breaks_build e = true.
Proof.
  unfold index_entry, entry_breaks_build, has_term.
  destruct (raw_term e) as [[|c term]|]; cbn; try (split; discriminate).
  destruct (raw_plain_alternative e) as [alt|]; cbn; split; try discriminate; done.
Qed.

Lemma for_each_None {S A : Type} (body : S -> A -> option S) (bad : A -> bool)
    (l : list A) (st : S) :
  (forall st x, body st x = None <-> bad x = true) ->
  for_each body st l = None <-> existsb bad l = true.
Proof.
  intros Hbad. revert st. induction l as [|x l IH]; intros st; cbn.
  - split; discriminate.
  - destruct (body st x) as [st'|] eqn:E.
    + rewrite IH. destruct (bad x) eqn:Eb; [|done].
      apply (Hbad st) in Eb. congruence.
    + apply Hbad in E. rewrite E. done.
Qed.

Lemma index_file_None (svc : GlossaryService) (file : glossary_file) :
  index_file svc file = None <-> file_breaks_build file = true.
Proof.
  destruct file as [filename content]. unfold index_file, file_breaks_build. cbn [fst snd].
  destruct (endswith filename (py ".json")); cbn; [|split; discriminate].
  destruct content as [data|]; [|done].
  apply for_each_None. intros st x. apply index_entry_None.
Qed.

(** X9.  Construction of the service fails exactly when the directory
    cannot be listed, or one of its "*.json" files cannot be loaded or holds
    a record with a non-empty term and no plain alternative. *)
Theorem build_failure (glossaries_dir : option (list glossary_file)) :
  new_service glossaries_dir = None
  <-> match glossaries_dir with
      | None => True
      | Some files => existsb file_breaks_build files = true
      end.
Proof.
  unfold new_service, _load_and_index. destruct glossaries_dir as [files|]; [|done].
  apply for_each_None. intros st x. apply index_file_None.
Qed.

(** ** The simple matcher *)

Lemma insert_by_len_sorted (x : str) (l : list str) :
  longest_first l -> longest_first (insert_by_len x l).
Proof.
  unfold longest_first. induction l as [|y l IH]; intros Hs; cbn.
  - by repeat constructor.
  - apply StronglySorted_inv in Hs as [Hl Hy].
    destruct (length y <=? length x) eqn:E.
    + apply Nat.leb_le in E. constructor; [by constructor|].
      constructor; [done|]. eapply Forall_impl; [exact Hy|]. cbn. lia.
    + apply Nat.leb_gt in E. constructor; [by apply IH|].
      rewrite insert_by_len_perm. constructor; [lia|done].
Qed.

Lemma sorted_by_len_desc_sorted (l : list str) : longest_first (sorted_by_len_desc l).
Proof.
  induction l as [|x l IH]; cbn; [constructor|]. by apply insert_by_len_sorted.
Qed.

Lemma longest_first_sublist (l1 l2 : list str) :
  l1 `sublist_of` l2 -> longest_first l2 -> longest_first l1.
Proof.
  unfold longest_first. induction 1 as [|x l1 l2 Hsub IH|x l1 l2 Hsub IH]; intros Hs.
  - constructor.
  - apply StronglySorted_inv in Hs as [Hl Hx]. constructor; [by apply IH|].
    apply Forall_forall. intros y Hy. rewrite Forall_forall in Hx.
    apply Hx. by eapply elem_of_sublist.
  - apply StronglySorted_inv in Hs as [Hl _]. by apply IH.
Qed.

Lemma dict_set_keys {K V : Type} `{EqDecision K} (k : K) (v : V) (d : list (K * V)) :
  (dict_set k v d).*1 = if bool_decide (k ∈ d.*1) then d.*1 else d.*1 ++ [k].
Proof.
  unfold dict_set. destruct (bool_decide (k ∈ d.*1)).
  - induction d as [|[k' v'] d IH]; [done|]. cbn. rewrite IH.
    by case_bool_decide; subst.
  - by rewrite fmap_app.
Qed.

Lemma elem_of_dict_set {K V : Type} `{EqDecision K} (k : K) (v : V) (d : list (K * V))
    (kv : K * V) :
  kv ∈ dict_set k v d -> kv = (k, v) \/ kv ∈ d.
Proof.
  unfold dict_set. destruct (bool_decide (k ∈ d.*1)).
  - intros (kv' & Hkv & Hin)%list_elem_of_fmap.
    case_bool_decide; subst; [by left|by right].
  - intros [H|H%list_elem_of_singleton]%elem_of_app; [by right|by left].
Qed.

Lemma remove_all_sublist (old : str) (skip : nat) (s : str) :
  remove_all old skip s `sublist_of` s.
Proof.
  revert skip. induction s as [|c s IH]; intros skip; cbn [remove_all]; [done|].
  destruct skip as [|k]; [|by apply sublist_cons].
  destruct (startswith old (c :: s)); [by apply sublist_cons|by apply sublist_skip].
Qed.

Lemma remove_substring_sublist (old s : str) : remove_substring old s `sublist_of` s.
Proof. destruct old; [done|apply remove_all_sublist]. Qed.

Lemma search_from_sound (text : str) (re : regex) (k s : nat) (m : re_match) :
  search_from text re k s = Some m ->
  match_here text (fun _ => true) re (m_start m) = Some (m_end m, m_groups m).
Proof.
  revert s. induction k as [|k IH]; intros s; cbn [search_from]; [discriminate|].
  destruct (match_here text (fun _ => true) re s) as [[e groups]|] eqn:E; [|apply IH].
  by intros [= <-].
Qed.

Lemma re_search_phrase (text phrase : str) (m : re_match) :
  re_search text (phrase_pattern phrase) = Some m ->
  whole_word_at text phrase (m_start m).
Proof.
  intros H%search_from_sound. unfold phrase_pattern in H. cbn in H.
  destruct (at_boundary text (m_start m)) eqn:Eb; [|discriminate].
  apply match_here_literals in H as [Htake H]. cbn in H.
  destruct (at_boundary text (m_start m + length phrase)) eqn:Ee; [|discriminate].
  split; [done|]. split; [|done].
  unfold slice. by replace (m_start m + length phrase - m_start m) with (length phrase) by lia.
Qed.

Lemma whole_word_at_sublist (text phrase : str) (s : nat) :
  whole_word_at text phrase s -> phrase `sublist_of` text.
Proof.
  intros (_ & <- & _). unfold slice.
  etrans; [apply sublist_take|apply sublist_drop].
Qed.

Section SimpleMatcher.

Variable self : GlossaryService.
Variable text : str.

Let step := scan_phrase_simple (phrase_index self).

Lemma scan_phrase_simple_keys (st : list (str * list glossary_entry) * str) (l : list str) :
  exists ks, (foldl step st l).1.*1 = st.1.*1 ++ ks /\ ks `sublist_of` l.
Proof.
  revert st. induction l as [|p l IH]; intros st; cbn [foldl].
  - exists []. by rewrite app_nil_r.
  - destruct (IH (step st p)) as (ks & Hks & Hsub). rewrite Hks.
    unfold step, scan_phrase_simple.
    destruct (re_search st.2 (phrase_pattern p)) as [m|].
    + cbn [fst]. rewrite dict_set_keys. case_bool_decide.
      * exists ks. split; [done|]. by apply sublist_cons.
      * exists (p :: ks). split; [by rewrite <- app_assoc|]. by apply sublist_skip.
    + exists ks. split; [done|]. by apply sublist_cons.
Qed.

Lemma scan_phrase_simple_NoDup (st : list (str * list glossary_entry) * str) (p : str) :
  NoDup st.1.*1 -> NoDup (step st p).1.*1.
Proof.
  intros Hnd. unfold step, scan_phrase_simple.
  destruct (re_search st.2 (phrase_pattern p)) as [m|]; [|done].
  cbn [fst]. rewrite dict_set_keys. case_bool_decide; [done|].
  apply NoDup_app. split; [done|]. split; [|apply NoDup_singleton].
  intros x Hx ->%list_elem_of_singleton. done.
Qed.

Lemma scan_phrase_simple_values (st : list (str * list glossary_entry) * str) (p : str) :
  Forall (fun kv => kv.2 = default [] (phrase_index self !! kv.1)) st.1 ->
  Forall (fun kv => kv.2 = default [] (phrase_index self !! kv.1)) (step st p).1.
Proof.
  intros Hv. unfold step, scan_phrase_simple.
  destruct (re_search st.2 (phrase_pattern p)) as [m|]; [|done].
  cbn [fst]. apply Forall_forall. intros kv [->|Hin]%elem_of_dict_set; [done|].
  rewrite Forall_forall in Hv. by apply Hv.
Qed.

(** The phrases found so far and the text still to scan are made of
    characters of the lowercased text, in their order. *)
Lemma scan_phrase_simple_sublists (st : list (str * list glossary_entry) * str) (p : str) :
  Forall (fun k => k `sublist_of` lower text) st.1.*1 /\ st.2 `sublist_of` lower text ->
  Forall (fun k => k `sublist_of` lower text) (step st p).1.*1
  /\ (step st p).2 `sublist_of` lower text.
Proof.
  intros [Hkeys Hscan]. unfold step, scan_phrase_simple.
  destruct (re_search st.2 (phrase_pattern p)) as [m|] eqn:E; [|done].
  cbn [fst snd]. split.
  - rewrite dict_set_keys. case_bool_decide; [done|].
    apply Forall_app. split; [done|]. constructor; [|constructor].
    etrans; [|exact Hscan]. eapply whole_word_at_sublist, re_search_phrase, E.
  - etrans; [apply remove_substring_sublist|done].
Qed.

(** Until a phrase is found the text to scan is the lowercased text;
    the first phrase found stands in it as a whole word, and stays the
    first key of the dict. *)
Lemma scan_phrase_simple_first (st : list (str * list glossary_entry) * str) (p : str) :
  match st.1 with
  | [] => st.2 = lower text
  | kv :: _ => exists s, whole_word_at (lower text) kv.1 s
  end ->
  match (step st p).1 with
  | [] => (step st p).2 = lower text
  | kv :: _ => exists s, whole_word_at (lower text) kv.1 s
  end.
Proof.
  unfold step, scan_phrase_simple.
  destruct (re_search st.2 (phrase_pattern p)) as [m|] eqn:E; [|done].
  cbn [fst snd]. destruct st as [[|[k v] found] scan]; cbn [fst snd] in *.
  - intros ->. exists (m_start m). by apply re_search_phrase.
  - intros Hk. unfold dict_set. destruct (bool_decide _); [|done].
    cbn [fmap list_fmap]. by case_bool_decide; subst.
Qed.

End SimpleMatcher.

(** X10.  The simple matcher returns a dict whose keys are distinct known
    phrases in the order of the length-sorted phrase list (so no key comes
    before a longer one), and the value under each key is the list that the
    index holds for it. *)
Theorem simple_matcher_result_shape (self : GlossaryService) (phrases : list str)
    (text : str) :
  let found_phrases := find_and_define_phrases_in_text self phrases text in
  found_phrases.*1 `sublist_of` sorted_by_len_desc phrases
  /\ longest_first found_phrases.*1
  /\ NoDup found_phrases.*1
  /\ forall phrase entries,
       (phrase, entries) ∈ found_phrases ->
       phrase ∈ phrases /\ entries = default [] (phrase_index self !! phrase).
Proof.
  cbv zeta. unfold find_and_define_phrases_in_text.
  destruct (scan_phrase_simple_keys self ([], lower text) (sorted_by_len_desc phrases))
    as (ks & Hks & Hsub).
  cbn [fst fmap list_fmap app] in Hks.
  split; [by rewrite Hks|].
  split; [rewrite Hks; eapply longest_first_sublist; [done|apply sorted_by_len_desc_sorted]|].
  split.
  - apply (foldl_invariant (fun st => NoDup st.1.*1)); [|constructor].
    intros st x _. apply scan_phrase_simple_NoDup.
  - intros phrase entries Hin. split.
    + rewrite <- (sorted_by_len_desc_perm phrases).
      eapply elem_of_sublist; [|exact Hsub]. rewrite <- Hks.
      apply list_elem_of_fmap. by exists (phrase, entries).
    + revert Hin.
      pose proof (foldl_invariant
        (fun st => Forall (fun kv => kv.2 = default [] (phrase_index self !! kv.1)) st.1)
        (scan_phrase_simple (phrase_index self)) (sorted_by_len_desc phrases)
        ([], lower text)) as Hv.
      intros Hin. assert (Hall := Hv (fun st x _ => scan_phrase_simple_values self st x)
                                      (Forall_nil_2 _)).
      rewrite Forall_forall in Hall. exact (Hall _ Hin).
Qed.

(** X11.  The first phrase that the simple matcher reports stands in the
    lowercased text between two word boundaries.  Every reported phrase is
    made of characters of the lowercased text in their order; since found
    phrases are cut out of the text before the shorter ones are tried, it
    need not stand in the text in one piece. *)
Theorem simple_matcher_occurrences (self : GlossaryService) (phrases : list str)
    (text : str) :
  let found_phrases := find_and_define_phrases_in_text self phrases text in
  match found_phrases with
  | [] => True
  | (phrase, _) :: _ => exists s, whole_word_at (lower text) phrase s
  end
  /\ forall phrase, phrase ∈ found_phrases.*1 -> phrase `sublist_of` lower text.
Proof.
  cbv zeta. unfold find_and_define_phrases_in_text. split.
  - pose proof (foldl_invariant
      (fun st => match st.1 with
                 | [] => st.2 = lower text
                 | kv :: _ => exists s, whole_word_at (lower text) kv.1 s
                 end)
      (scan_phrase_simple (phrase_index self)) (sorted_by_len_desc phrases)
      ([], lower text)
      (fun st x _ => scan_phrase_simple_first self text st x) eq_refl) as H.
    cbv beta in H. by destruct (foldl _ _ _).1 as [|[p v] rest].
  - pose proof (foldl_invariant
      (fun st => Forall (fun k => k `sublist_of` lower text) st.1.*1
                 /\ st.2 `sublist_of` lower text)
      (scan_phrase_simple (phrase_index self)) (sorted_by_len_desc phrases)
      ([], lower text)
      (fun st x _ => scan_phrase_simple_sublists self text st x)
      (conj (Forall_nil_2 _) (reflexivity _))) as [H _].
    intros phrase Hin. rewrite Forall_forall in H. by apply H.
Qed.

Lemma re_search_empty_text (phrase : str) : re_search [] (phrase_pattern phrase) = None.
Proof. reflexivity. Qed.

(** X12.  On the empty text the simple matcher returns the empty dict, for
    every index and every list of known phrases. *)
Theorem simple_matcher_empty_text (self : GlossaryService) (phrases : list str) :
  find_and_define_phrases_in_text self phrases [] = [].
Proof.
  unfold find_and_define_phrases_in_text.
  change (lower []) with (@nil ascii).
  rewrite (foldl_invariant (fun st => st = ([], []))
             (scan_phrase_simple (phrase_index self)) (sorted_by_len_desc phrases)
             ([], [])); [done| |done].
  intros st x _ ->. unfold scan_phrase_simple. cbn [snd].
  by rewrite re_search_empty_text.
Qed.

(** ** Singleton: a service that was built is kept *)

Lemma get_service_calls_initialized (dirs : list (option (list glossary_file)))
    (self : singleton) :
  _initialized self = true ->
  get_service_calls dirs self = (replicate (length dirs) (_service self), self).
Proof.
  intros Hi. induction dirs as [|d dirs IH]; [reflexivity|].
  cbn [get_service_calls]. by rewrite (get_service_initialized d self Hi), IH.
Qed.

(** X13.  When the first construction succeeds, [get_service] returns the
    service built and keeps it: every further sequence of [get_service]
    calls returns that same service and changes nothing, whatever the
    directory holds by then; the directory was read once. *)
Theorem successful_init_is_cached (d : option (list glossary_file)) (self : singleton)
    (service : GlossaryService) :
  _initialized self = false ->
  new_service d = Some service ->
  let '(r, self1) := get_service d self in
  r = Some service /\ _initialized self1 = true /\ _service self1 = Some service
  /\ build_attempts self1 = S (build_attempts self)
  /\ forall dirs,
       get_service_calls dirs self1 = (replicate (length dirs) (Some service), self1).
Proof.
  intros Hinit Hbuild. unfold get_service. rewrite Hinit, Hbuild. cbn [negb].
  split; [reflexivity|]. split; [reflexivity|]. split; [reflexivity|].
  split; [apply build_attempts_succeeded|].
  intros dirs. by apply get_service_calls_initialized.
Qed.

Lemma successful_init_is_cached_disease :
  let '(r, self1) := get_service disease_dir (Singleton None false []) in
  r = Some disease_service /\ _initialized self1 = true
  /\ _service self1 = Some disease_service
  /\ build_attempts self1 = S (build_attempts (Singleton None false []))
  /\ forall dirs,
       get_service_calls dirs self1 = (replicate (length dirs) (Some disease_service), self1).
Proof.
  apply (successful_init_is_cached disease_dir (Singleton None false []) disease_service).
  - reflexivity.
  - by vm_compute.
Defined.

(** ** ToolRegistry *)

Lemma dict_get_None {K V : Type} `{EqDecision K} (k : K) (d : list (K * V)) :
  dict_get k d = None <-> k ∉ d.*1.
Proof.
  induction d as [|[k' v'] d IH]; cbn.
  - split; [intros _; apply not_elem_of_nil|done].
  - rewrite not_elem_of_cons, <- IH. case_bool_decide as E.
    + split; [discriminate|]. intros [? _]. congruence.
    + split; [intros ?; split; [congruence|done]|by intros [_ ?]].
Qed.

Lemma dict_get_app {K V : Type} `{EqDecision K} (k : K) (d1 d2 : list (K * V)) :
  dict_get k (d1 ++ d2)
  = match dict_get k d1 with Some v => Some v | None => dict_get k d2 end.
Proof.
  induction d1 as [|[k' v'] d1 IH]; cbn; [done|]. by case_bool_decide.
Qed.

Lemma dict_get_replaced {K V : Type} `{EqDecision K} (k : K) (v : V) (d : list (K * V)) :
  k ∈ d.*1 ->
  dict_get k ((fun kv => if bool_decide (kv.1 = k) then (k, v) else kv) <$> d) = Some v.
Proof.
  induction d as [|[k0 v0] d IH]; cbn; [by intros ?%elem_of_nil|].
  intros Hin. case_bool_decide as E; cbn.
  - by rewrite bool_decide_eq_true_2.
  - rewrite bool_decide_eq_false_2 by done. apply IH.
    apply elem_of_cons in Hin as [->|Hin]; done.
Qed.

Lemma dict_get_other {K V : Type} `{EqDecision K} (k k' : K) (v : V) (d : list (K * V)) :
  k' <> k ->
  dict_get k' ((fun kv => if bool_decide (kv.1 = k) then (k, v) else kv) <$> d)
  = dict_get k' d.
Proof.
  intros Hne. induction d as [|[k0 v0] d IH]; cbn; [done|].
  case_bool_decide as E; cbn.
  - subst k0. rewrite !bool_decide_eq_false_2 by congruence. apply IH.
  - rewrite IH. done.
Qed.

Lemma dict_get_dict_set {K V : Type} `{EqDecision K} (k k' : K) (v : V)
    (d : list (K * V)) :
  dict_get k' (dict_set k v d) = if decide (k' = k) then Some v else dict_get k' d.
Proof.
  unfold dict_set. case_bool_decide as Hin.
  - destruct (decide (k' = k)) as [->|Hne].
    + by apply dict_get_replaced.
    + by apply dict_get_other.
  - rewrite dict_get_app. cbn. destruct (decide (k' = k)) as [->|Hne].
    + apply dict_get_None in Hin. rewrite Hin. by rewrite bool_decide_eq_true_2.
    + rewrite bool_decide_eq_false_2 by congruence. by destruct (dict_get k' d).
Qed.

Lemma dict_set_NoDup {K V : Type} `{EqDecision K} (k : K) (v : V) (d : list (K * V)) :
  NoDup d.*1 -> NoDup (dict_set k v d).*1.
Proof.
  intros Hnd. rewrite dict_set_keys. case_bool_decide; [done|].
  apply NoDup_app. split; [done|]. split; [|apply NoDup_singleton].
  by intros x Hx ->%list_elem_of_singleton.
Qed.

Lemma dict_get_Some_elem_of {K V : Type} `{EqDecision K} (k : K) (v : V)
    (d : list (K * V)) :
  dict_get k d = Some v -> (k, v) ∈ d.
Proof.
  induction d as [|[k0 v0] d IH]; cbn; [discriminate|].
  case_bool_decide; [intros [= ->]; subst; by left|]. intros Hget. right. by apply IH.
Qed.

Section Registry.

Context {T : Type} `{BaseTool T}.

Lemma get_tool_register (tool : T) (self : ToolRegistry T) (n : str) :
  get_tool n (register tool self)
  = if decide (n = name (info tool)) then Some tool else get_tool n self.
Proof. unfold get_tool, register. cbn [_tools]. apply dict_get_dict_set. Qed.

Lemma tool_exists_get_tool (self : ToolRegistry T) (n : str) :
  tool_exists n self = true <-> is_Some (get_tool n self).
Proof.
  unfold tool_exists, get_tool. rewrite bool_decide_eq_true.
  destruct (dict_get n (_tools self)) as [t|] eqn:E.
  - split; [by eauto|]. intros _. apply dict_get_Some_elem_of in E.
    apply list_elem_of_fmap. by exists (n, t).
  - apply dict_get_None in E. split; [done|]. by intros [? [=]].
Qed.

Lemma register_all_snoc (tools : list T) (tool : T) :
  register_all (tools ++ [tool]) = register tool (register_all tools).
Proof. unfold register_all. by rewrite foldl_app. Qed.

(** Every tool of the registry sits under its own name, and no name is
    held twice. *)
Lemma register_all_keys (tools : list T) :
  NoDup (_tools (register_all tools)).*1
  /\ Forall (fun kv => kv.1 = name (info kv.2)) (_tools (register_all tools)).
Proof.
  induction tools as [|tool tools [IHnd IHk]] using rev_ind.
  - split; constructor.
  - rewrite register_all_snoc. unfold register. cbn [_tools]. split.
    + by apply dict_set_NoDup.
    + apply Forall_forall. intros kv [->|Hin]%elem_of_dict_set; [done|].
      rewrite Forall_forall in IHk. by apply IHk.
Qed.

(** X14.  After [register tool], [get_tool] returns that tool under its
    name, whether or not the name was taken before, and under every other
    name what it returned before; [tool_exists] holds of a name exactly
    when [get_tool] finds a tool under it. *)
Theorem register_then_get_tool (tool : T) (self : ToolRegistry T) (n : str) :
  get_tool n (register tool self)
  = (if decide (n = name (info tool)) then Some tool else get_tool n self)
  /\ (tool_exists n (register tool self) = true
      <-> (n = name (info tool) \/ tool_exists n self = true)).
Proof.
  split; [apply get_tool_register|].
  rewrite !tool_exists_get_tool, get_tool_register.
  destruct (decide (n = name (info tool))) as [->|Hne].
  - split; [by left|by eauto].
  - split; [by right|]. by intros [?|?].
Qed.

(** X15.  For a registry filled by successive [register] calls: [get_tool]
    returns the tool registered last under the name, [list_tools] lists
    each registered name once, and one line is printed per call. *)
Theorem last_registration_wins (tools : list T) (n : str) :
  let registry := register_all tools in
  get_tool n registry = last (filter (fun tool => name (info tool) = n) tools)
  /\ NoDup (name <$> list_tools registry)
  /\ (n ∈ name <$> list_tools registry <-> n ∈ (fun tool => name (info tool)) <$> tools)
  /\ length (registered_lines registry) = length tools.
Proof.
  cbv zeta. split; [|split; [|split]].
  - induction tools as [|tool tools IH] using rev_ind; [done|].
    rewrite register_all_snoc, get_tool_register, filter_app, IH.
    destruct (decide (n = name (info tool))) as [->|Hne].
    + rewrite filter_cons_True by done. by rewrite filter_nil, last_snoc.
    + rewrite filter_cons_False by congruence. by rewrite filter_nil, app_nil_r.
  - destruct (register_all_keys tools) as [Hnd Hk].
    replace (name <$> list_tools (register_all tools))
      with (_tools (register_all tools)).*1; [done|].
    unfold list_tools. rewrite <- list_fmap_compose.
    apply Forall_fmap_ext_1. eapply Forall_impl; [exact Hk|]. by intros kv ->.
  - destruct (register_all_keys tools) as [_ Hk].
    replace (name <$> list_tools (register_all tools))
      with (_tools (register_all tools)).*1.
    2:{ unfold list_tools. rewrite <- list_fmap_compose.
        apply Forall_fmap_ext_1. eapply Forall_impl; [exact Hk|]. by intros kv ->. }
    clear Hk. induction tools as [|tool tools IH] using rev_ind.
    + done.
    + rewrite register_all_snoc. unfold register. cbn [_tools].
      rewrite dict_set_keys, fmap_app, elem_of_app, <- IH. cbn.
      rewrite list_elem_of_singleton. case_bool_decide as E.
      * split; [by left|]. intros [?|Heq]; [done|by subst].
      * by rewrite elem_of_app, list_elem_of_singleton.
  - induction tools as [|tool tools IH] using rev_ind; [done|].
    rewrite register_all_snoc. unfold register. cbn [registered_lines].
    rewrite !length_app, IH. done.
Qed.

End Registry.

(** ** GlossaryTool *)

Module GlossaryToolFacts.

Import GlossaryTool.

Lemma validate_parameters_text (self : GlossaryTool) (parameters : gmap str py_value) :
  validate_parameters self parameters = bool_decide (is_Some (parameters !! py "text")).
Proof. unfold validate_parameters. cbn. by rewrite andb_true_r. Qed.

(** X16.  [execute] returns a success exactly when the tool holds a service
    and the parameters hold a string under "text"; the result is then the
    result of the enhanced matcher of that service on that string, whatever
    else the parameters hold.  No call raises. *)
Theorem execute_success (self : GlossaryTool) (phrases : list str)
    (parameters : gmap str py_value) (result : enhanced_result) :
  execute self phrases parameters = ResponseSuccess result
  <-> exists service text,
        glossary_service self = Some service
        /\ parameters !! py "text" = Some (PyStr text)
        /\ result = find_and_define_phrases_in_text_enhanced service phrases text.
Proof.
  unfold execute. rewrite validate_parameters_text.
  destruct (glossary_service self) as [service|].
  - destruct (parameters !! py "text") as [[text|type_name]|] eqn:E; cbn.
    + split.
      * intros [= <-]. by exists service, text.
      * intros (? & ? & [= <-] & [= <-] & ->). done.
    + split; [discriminate|]. by intros (? & ? & _ & [=] & _).
    + split; [discriminate|]. by intros (? & ? & _ & [=] & _).
  - split; [discriminate|]. by intros (? & ? & [=] & _).
Qed.

(** X17.  A tool made while the glossary could not be built answers every
    call with the error "Glossary service is not available", whatever the
    parameters: it holds the outcome of that one attempt.  A tool made
    after [reset] holds the outcome of a new attempt. *)
Theorem tool_keeps_failed_service (d d' : option (list glossary_file)) (st : singleton) :
  _initialized st = false ->
  new_service d = None ->
  let '(tool1, st1) := new_tool d st in
  let '(tool2, st2) := new_tool d' (reset st1) in
  (forall phrases parameters,
     execute tool1 phrases parameters
     = ResponseError (py "Glossary service is not available"))
  /\ glossary_service tool2 = new_service d'
  /\ (forall d'', glossary_service (new_tool d'' st1).1 = None).
Proof.
  intros Hinit Hfail. unfold new_tool, get_service, reset.
  rewrite Hinit, Hfail. cbn [negb _initialized stdout].
  destruct (new_service d') as [service|]; done.
Qed.

Lemma tool_keeps_failed_service_missing_dir :
  let '(tool1, st1) := new_tool None (Singleton None false []) in
  let '(tool2, st2) := new_tool disease_dir (reset st1) in
  (forall phrases parameters,
     execute tool1 phrases parameters
     = ResponseError (py "Glossary service is not available"))
  /\ glossary_service tool2 = new_service disease_dir
  /\ (forall d'', glossary_service (new_tool d'' st1).1 = None).
Proof.
  exact (tool_keeps_failed_service None disease_dir (Singleton None false [])
           eq_refl eq_refl).
Defined.

End GlossaryToolFacts.

(** ** Metric rating: the other direction, monotonicity, feedback *)

Module PLSScaleFacts.

Import PLS PLSScale.

Local Open Scope string_scope.

Lemma le_true (a b : Q) : le a b = true <-> (a <= b)%Q.
Proof. unfold le. apply Qle_bool_iff. Qed.

Lemma le_false (a b : Q) : le a b = false <-> (b < a)%Q.
Proof.
  unfold le. split.
  - intros H. apply Qnot_le_lt. intros Hle.
    apply Qle_bool_iff in Hle. congruence.
  - intros H. destruct (Qle_bool a b) eqn:E; [|reflexivity].
    apply Qle_bool_iff in E. lra.
Qed.

Lemma ge_le (a b : Q) : ge a b = le b a.
Proof. reflexivity. Qed.

Ltac compare_with value bound :=
  let E := fresh "E" in
  destruct (le value bound) eqn:E; [apply le_true in E | apply le_false in E].

Ltac compare_ge value bound :=
  let E := fresh "E" in
  destruct (ge value bound) eqn:E;
  [apply PLSFacts.ge_true in E | apply PLSFacts.ge_false in E].

(** X18.  Every direction other than "higher_better" is rated as
    lower_better.  With thresholds ordered excellent <= good <= acceptable
    <= poor the rating is then P25 exactly when value <= excellent, P50
    exactly when excellent < value <= good, P75 exactly when good < value
    <= acceptable, P90 exactly when acceptable < value <= poor, and
    BEYOND_P90 exactly when value > poor. *)
Theorem lower_better_rating (feature direction : string) (value : Q) (t : threshold_data) :
  direction <> "higher_better" ->
  (excellent t <= good t)%Q ->
  (good t <= acceptable t)%Q ->
  (acceptable t <= poor t)%Q ->
  let r := ev_rating (_evaluate_metric feature value t direction) in
  (r = P25 <-> (value <= excellent t)%Q) /\
  (r = P50 <-> (excellent t < value)%Q /\ (value <= good t)%Q) /\
  (r = P75 <-> (good t < value)%Q /\ (value <= acceptable t)%Q) /\
  (r = P90 <-> (acceptable t < value)%Q /\ (value <= poor t)%Q) /\
  (r = BEYOND_P90 <-> (poor t < value)%Q).
Proof.
  intros Hdir Heg Hga Hap. apply String.eqb_neq in Hdir.
  cbn [_evaluate_metric ev_rating]. unfold _evaluate_metric. cbn [ev_rating].
  rewrite Hdir.
  compare_with value (excellent t); compare_with value (good t);
  compare_with value (acceptable t); compare_with value (poor t);
  repeat split; intros; try discriminate; try reflexivity; try lra.
Qed.

Lemma lower_better_rating_example :
  let t := Thresholds 6 8 10 12 "lower_better" in
  let rate v := ev_rating (_evaluate_metric "flesch_kincaid_grade" v t (direction t)) in
  rate 5%Q = P25 /\ rate 8%Q = P50 /\ rate 9%Q = P75 /\ rate 12%Q = P90
  /\ rate 13%Q = BEYOND_P90.
Proof.
  pose (t := Thresholds 6 8 10 12 "lower_better").
  assert (H0 : direction t <> "higher_better") by discriminate.
  assert (H1 : (excellent t <= good t)%Q) by (cbn; lra).
  assert (H2 : (good t <= acceptable t)%Q) by (cbn; lra).
  assert (H3 : (acceptable t <= poor t)%Q) by (cbn; lra).
  cbv zeta. fold t.
  refine (conj _ (conj _ (conj _ (conj _ _)))).
  - apply (lower_better_rating "flesch_kincaid_grade" _ 5 t H0 H1 H2 H3). cbn. lra.
  - apply (lower_better_rating "flesch_kincaid_grade" _ 8 t H0 H1 H2 H3). cbn. lra.
  - apply (lower_better_rating "flesch_kincaid_grade" _ 9 t H0 H1 H2 H3). cbn. lra.
  - apply (lower_better_rating "flesch_kincaid_grade" _ 12 t H0 H1 H2 H3). cbn. lra.
  - apply (lower_better_rating "flesch_kincaid_grade" _ 13 t H0 H1 H2 H3). cbn. lra.
Defined.

(** X19.  The rating never gets worse when the value moves in the
    feature's direction, whatever the thresholds are (ordered or not): for
    a higher_better feature a larger value is rated in the same bucket or a
    better one, for any other feature in the same bucket or a worse one.
    The rating is always one of the five of the feature's own scale. *)
Theorem rating_monotone (feature direction : string) (v1 v2 : Q) (t : threshold_data) :
  (v1 <= v2)%Q ->
  let r1 := ev_rating (_evaluate_metric feature v1 t direction) in
  let r2 := ev_rating (_evaluate_metric feature v2 t direction) in
  if String.eqb direction "higher_better"
  then rank_higher_better r2 <= rank_higher_better r1 <= 4
  else rank_lower_better r1 <= rank_lower_better r2 <= 4.
Proof.
  intros Hle. unfold _evaluate_metric. cbn [ev_rating].
  destruct (String.eqb direction "higher_better").
  - compare_ge v1 (excellent t); compare_ge v2 (excellent t); try lra;
    compare_ge v1 (good t); compare_ge v2 (good t); try lra;
    compare_ge v1 (acceptable t); compare_ge v2 (acceptable t); try lra;
    compare_ge v1 (poor t); compare_ge v2 (poor t); try lra; cbn; lia.
  - compare_with v1 (excellent t); compare_with v2 (excellent t); try lra;
    compare_with v1 (good t); compare_with v2 (good t); try lra;
    compare_with v1 (acceptable t); compare_with v2 (acceptable t); try lra;
    compare_with v1 (poor t); compare_with v2 (poor t); try lra; cbn; lia.
Qed.

Lemma rating_monotone_example :
  let t := Thresholds 70 50 30 10 "higher_better" in
  let r1 := ev_rating (_evaluate_metric "flesch_reading_ease" 15 t "higher_better") in
  let r2 := ev_rating (_evaluate_metric "flesch_reading_ease" 55 t "higher_better") in
  rank_higher_better r2 <= rank_higher_better r1 <= 4.
Proof.
  apply (rating_monotone "flesch_reading_ease" "higher_better" 15 55
           (Thresholds 70 50 30 10 "higher_better")).
  lra.
Defined.

(** X20.  Feedback is given exactly when the value is on the wrong side of
    the excellent, the good and the acceptable threshold at once (below
    all three for higher_better, above all three for any other direction);
    it then names the value and the good threshold as the target. *)
Theorem feedback_when_deviating (feature direction : string) (value : Q)
    (t : threshold_data) :
  let feedback := ev_feedback (_evaluate_metric feature value t direction) in
  if String.eqb direction "higher_better"
  then ((value < excellent t)%Q /\ (value < good t)%Q /\ (value < acceptable t)%Q
        -> feedback = Some (ConsiderIncreasing value (good t)))
       /\ (feedback <> None
           -> (value < excellent t)%Q /\ (value < good t)%Q /\ (value < acceptable t)%Q)
  else ((excellent t < value)%Q /\ (good t < value)%Q /\ (acceptable t < value)%Q
        -> feedback = Some (ConsiderReducing value (good t)))
       /\ (feedback <> None
           -> (excellent t < value)%Q /\ (good t < value)%Q /\ (acceptable t < value)%Q).
Proof.
  unfold _evaluate_metric. cbn [ev_feedback].
  destruct (String.eqb direction "higher_better").
  - compare_ge value (excellent t); compare_ge value (good t);
    compare_ge value (acceptable t); compare_ge value (poor t);
    (split; [intros (? & ? & ?); first [reflexivity | lra]
            | intros Hfb; first [done | by repeat split]]).
  - compare_with value (excellent t); compare_with value (good t);
    compare_with value (acceptable t); compare_with value (poor t);
    (split; [intros (? & ? & ?); first [reflexivity | lra]
            | intros Hfb; first [done | by repeat split]]).
Qed.

(** ** The loop over the recommended features *)

Lemma fold_rateable (features : gmap string Q) (thresholds : gmap string threshold_data)
    (l : list string) (st : list (string * metric_evaluation) * rating_counts) :
  (foldl (evaluate_feature features thresholds) st l).1.*1
  = (st.1.*1 ++ List.filter (rateable features thresholds) l)%list.
Proof.
  revert st. induction l as [|f l IH]; intros st; cbn [foldl List.filter].
  - by rewrite app_nil_r.
  - rewrite IH. unfold evaluate_feature, rateable.
    case_bool_decide; cbn [negb andb]; [done|].
    destruct (features !! f) as [v|].
    2:{ rewrite bool_decide_eq_false_2 by (by intros [? [=]]). done. }
    rewrite bool_decide_eq_true_2 by eauto.
    destruct (thresholds !! f) as [td|].
    2:{ rewrite bool_decide_eq_false_2 by (by intros [? [=]]). done. }
    rewrite bool_decide_eq_true_2 by eauto. cbn [andb fst].
    by rewrite fmap_app, <- app_assoc.
Qed.

Lemma fold_evaluations (features : gmap string Q) (thresholds : gmap string threshold_data)
    (l : list string) :
  Forall (evaluation_of features thresholds)
         (foldl (evaluate_feature features thresholds) ([], no_counts) l).1.
Proof.
  apply (foldl_invariant (fun st => Forall (evaluation_of features thresholds) st.1));
    [|constructor].
  intros [evs c] f _ IH. cbn [fst] in IH. unfold evaluate_feature.
  case_bool_decide; [done|].
  destruct (features !! f) as [v|] eqn:Ef; [|done].
  destruct (thresholds !! f) as [td|] eqn:Et; [|done]. cbn [fst].
  apply Forall_app. split; [done|]. constructor; [|constructor].
  by exists v, td.
Qed.

Lemma filter_NoDup_bool {A : Type} (p : A -> bool) (l : list A) :
  NoDup l -> NoDup (List.filter p l).
Proof.
  induction 1 as [|x l Hx Hnd IH]; cbn; [constructor|].
  destruct (p x); [|done]. constructor; [|done].
  rewrite list_elem_of_In, filter_In, <- list_elem_of_In. tauto.
Qed.

Lemma filter_length_andb {A : Type} (p q : A -> bool) (l : list A) :
  length (List.filter (fun x => p x && q x) l) <= length (List.filter p l).
Proof.
  induction l as [|x l IH]; cbn; [done|].
  destruct (p x), (q x); cbn; lia.
Qed.

Lemma execute_with_rated (feature_list : list string)
    (analyze : str -> option (gmap string Q))
    (thresholds : gmap string threshold_data) (text : str) (d : evaluation_data) :
  execute_with feature_list analyze thresholds text = ResponseSuccess d ->
  exists features,
    analyze text = Some features
    /\ (linguistic_evaluation d).*1 = List.filter (rateable features thresholds) feature_list
    /\ Forall (evaluation_of features thresholds) (linguistic_evaluation d).
Proof.
  unfold execute_with. destruct text as [|c text]; [discriminate|].
  destruct (analyze (c :: text)) as [features|]; [|discriminate].
  intros [= <-]. exists features. cbn [linguistic_evaluation].
  split; [done|]. split; [|apply fold_evaluations].
  by rewrite fold_rateable.
Qed.

Lemma rateable_at_most_27 (features : gmap string Q)
    (thresholds : gmap string threshold_data) :
  length (List.filter (rateable features thresholds) recommended_features) <= 27.
Proof.
  unfold rateable.
  etrans; [apply (filter_length_andb
                    (fun f => negb (bool_decide (f ∈ ["words"; "sentences"]))
                              && bool_decide (is_Some (features !! f))))|].
  etrans; [apply (filter_length_andb
                    (fun f => negb (bool_decide (f ∈ ["words"; "sentences"]))))|].
  by vm_compute.
Qed.

(** X21.  When [execute] succeeds, the rated features are, in the order of
    the recommended list, exactly the recommended features other than
    "words" and "sentences" for which the analysis has a value and the
    table has thresholds: no feature is rated twice, at most 27 are rated,
    and the entry of each is [_evaluate_metric] of its value and thresholds
    in the direction that the table gives. *)
Theorem rated_features (analyze : str -> option (gmap string Q))
    (thresholds : gmap string threshold_data) (text : str) (d : evaluation_data) :
  execute analyze thresholds text = ResponseSuccess d ->
  exists features,
    analyze text = Some features
    /\ (linguistic_evaluation d).*1
       = List.filter (rateable features thresholds) recommended_features
    /\ NoDup (linguistic_evaluation d).*1
    /\ length (linguistic_evaluation d) <= 27
    /\ Forall (evaluation_of features thresholds) (linguistic_evaluation d).
Proof.
  intros Hexec.
  destruct (execute_with_rated recommended_features analyze thresholds text d Hexec)
    as (features & Han & Hnames & Hevs).
  exists features. split; [done|]. split; [done|]. split; [|split; [|done]].
  - rewrite Hnames. apply filter_NoDup_bool, PLSSummary.recommended_features_distinct.
  - rewrite <- (length_fmap fst), Hnames. apply rateable_at_most_27.
Qed.

Lemma rated_features_example :
  exists d features,
    execute example_analysis example_thresholds (py "A short summary.") = ResponseSuccess d
    /\ example_analysis (py "A short summary.") = Some features
    /\ (linguistic_evaluation d).*1
       = List.filter (rateable features example_thresholds) recommended_features
    /\ NoDup (linguistic_evaluation d).*1
    /\ length (linguistic_evaluation d) <= 27
    /\ Forall (evaluation_of features example_thresholds) (linguistic_evaluation d).
Proof.
  eexists.
  destruct (rated_features example_analysis example_thresholds (py "A short summary.") _
              eq_refl) as (features & H).
  exists features. split; [reflexivity|]. exact H.
Defined.

(** ** The summary *)

Lemma nat_to_Q_nonneg (n : nat) : (0 <= nat_to_Q n)%Q.
Proof. unfold nat_to_Q, Qle. cbn. lia. Qed.

Lemma nat_to_Q_le (m n : nat) : m <= n -> (nat_to_Q m <= nat_to_Q n)%Q.
Proof. intros H. unfold nat_to_Q, Qle. cbn. lia. Qed.

Lemma nat_to_Q_pos (n : nat) : 0 < n -> (0 < nat_to_Q n)%Q.
Proof. intros H. unfold nat_to_Q, Qlt. cbn. lia. Qed.

Lemma summarize_rate_bounds (c : rating_counts) :
  (0 <= best_quartile_rate (summarize c))%Q /\ (best_quartile_rate (summarize c) <= 100)%Q.
Proof.
  unfold summarize. cbn [best_quartile_rate].
  destruct (0 <? sum_values c)%nat eqn:E; [|split; lra].
  apply Nat.ltb_lt in E.
  assert (Hle : c P25 + c P75 <= sum_values c) by (unfold sum_values; lia).
  pose proof (nat_to_Q_nonneg (c P25 + c P75)) as H0.
  pose proof (nat_to_Q_le _ _ Hle) as H1.
  pose proof (nat_to_Q_pos _ E) as H2.
  assert (Hlo : (0 <= nat_to_Q (c P25 + c P75) / nat_to_Q (sum_values c))%Q).
  { apply Qle_shift_div_l; [done|]. lra. }
  assert (Hhi : (nat_to_Q (c P25 + c P75) / nat_to_Q (sum_values c) <= 1)%Q).
  { apply Qle_shift_div_r; [done|]. lra. }
  split; lra.
Qed.

Lemma execute_with_rate_bounds (feature_list : list string)
    (analyze : str -> option (gmap string Q))
    (thresholds : gmap string threshold_data) (text : str) (d : evaluation_data) :
  execute_with feature_list analyze thresholds text = ResponseSuccess d ->
  (0 <= best_quartile_rate (summary d))%Q
  /\ (best_quartile_rate (summary d) <= 100)%Q.
Proof.
  unfold execute_with. destruct text as [|ch text]; [discriminate|].
  destruct (analyze (ch :: text)) as [features|]; [|discriminate].
  generalize (foldl (evaluate_feature features thresholds) ([], no_counts) feature_list).
  intros st [= <-]. cbn [summary].
  apply summarize_rate_bounds.
Qed.

(** X22.  Whenever [execute] succeeds, [best_quartile_rate] lies between 0
    and 100. *)
Theorem best_quartile_rate_bounds (analyze : str -> option (gmap string Q))
    (thresholds : gmap string threshold_data) (text : str) (d : evaluation_data) :
  execute analyze thresholds text = ResponseSuccess d ->
  (0 <= best_quartile_rate (summary d))%Q
  /\ (best_quartile_rate (summary d) <= 100)%Q.
Proof. exact (execute_with_rate_bounds recommended_features analyze thresholds text d). Qed.

Lemma best_quartile_rate_bounds_example :
  exists d,
    execute example_analysis example_thresholds (py "A short summary.") = ResponseSuccess d
    /\ (0 <= best_quartile_rate (summary d))%Q
    /\ (best_quartile_rate (summary d) <= 100)%Q.
Proof.
  eexists. split; [reflexivity|].
  exact (best_quartile_rate_bounds example_analysis example_thresholds
           (py "A short summary.") _ eq_refl).
Defined.

End PLSScaleFacts.

(** ** The enhanced matcher ignores the case of the text *)

Lemma foldl_simulation {S1 S2 A : Type} (F : S1 -> S2) (G : S1 -> Prop)
    (f : S1 -> A -> S1) (g : S2 -> A -> S2) (l : list A) (st : S1) :
  (forall st x, x ∈ l -> G st -> G (f st x) /\ F (f st x) = g (F st) x) ->
  G st ->
  G (foldl f st l) /\ F (foldl f st l) = foldl g (F st) l.
Proof.
  revert st. induction l as [|x l IH]; intros st Hstep Hst; cbn; [done|].
  destruct (Hstep st x) as [HG HF]; [by left|done|].
  rewrite <- HF. apply IH; [|done]. intros st' y Hy. apply Hstep. by right.
Qed.

Section Respelling.

Variable text1 text2 : str.

(** The aliases of the dict are read from [text1]. *)
Let spelled (found : term_dict) : Prop :=
  all_matches (fun m => alias_found m = slice text1 (location_start m) (location_end m))
              found.

Let respelled_dict (found : term_dict) : term_dict :=
  (fun kv => (kv.1, respelled_term text2 kv.2)) <$> found.

Lemma has_key_respelled (k : str) (found : term_dict) :
  has_key k (respelled_dict found) = has_key k found.
Proof.
  unfold has_key, respelled_dict. induction found as [|[k' t] found IH]; [done|].
  cbn. by rewrite <- IH.
Qed.

Lemma append_new_respelled (s e : nat) (ms : list match_info) :
  Forall (fun m => alias_found m = slice text1 (location_start m) (location_end m)) ms ->
  respelled text2 <$> append_new (MatchInfo (slice text1 s e) s e) ms
  = append_new (MatchInfo (slice text2 s e) s e) (respelled text2 <$> ms).
Proof.
  intros Hms. unfold append_new.
  case_bool_decide as E1; case_bool_decide as E2.
  - done.
  - exfalso. apply E2. apply list_elem_of_fmap. by eexists; split; [|exact E1].
  - exfalso. apply E1. apply list_elem_of_fmap in E2 as (m & Hm & Hin).
    rewrite Forall_forall in Hms. specialize (Hms m Hin).
    destruct m as [a s' e']. cbn in *. injection Hm as _ -> ->. by subst a.
  - by rewrite fmap_app.
Qed.

Lemma record_definition_respelled (s e : nat) (found : term_dict) (d : glossary_entry) :
  spelled found ->
  spelled (record_definition text1 s e found d)
  /\ respelled_dict (record_definition text1 s e found d)
     = record_definition text2 s e (respelled_dict found) d.
Proof.
  intros Hsp. split; [by apply record_definition_matches|].
  rewrite !record_definition_unfold, has_key_respelled.
  assert (Hsp' : spelled
            (if has_key (main_term d) found then found
             else found ++ [(main_term d, FoundTerm (main_term d) [] [])])).
  { destruct (has_key _ _); [done|]. apply Forall_app. split; [done|].
    constructor; [|done]. cbn. constructor. }
  replace (if has_key (main_term d) found then respelled_dict found
           else respelled_dict found ++ [(main_term d, FoundTerm (main_term d) [] [])])
    with (respelled_dict
            (if has_key (main_term d) found then found
             else found ++ [(main_term d, FoundTerm (main_term d) [] [])])).
  2:{ destruct (has_key _ _); [done|]. unfold respelled_dict. by rewrite fmap_app. }
  revert Hsp'. generalize (if has_key (main_term d) found then found
                           else found ++ [(main_term d, FoundTerm (main_term d) [] [])]).
  intros found' Hsp'. unfold update_key, respelled_dict.
  induction Hsp' as [|[k t] found' Hkt Hrest IH]; [done|].
  cbn [map fmap list_fmap fst snd]. f_equal; [|exact IH].
  case_bool_decide; [|done]. cbn [fst snd]. f_equal.
  unfold respelled_term. cbn [ft_main_term definitions matches_in_text]. f_equal.
  by apply append_new_respelled.
Qed.

Lemma record_match_respelled (index : gmap str (list glossary_entry)) (phrase : str)
    (st : term_dict * list (nat * nat)) (m : nat * nat) :
  spelled st.1 ->
  spelled (record_match index text1 phrase st m).1
  /\ (respelled_dict (record_match index text1 phrase st m).1,
      (record_match index text1 phrase st m).2)
     = record_match index text2 phrase (respelled_dict st.1, st.2) m.
Proof.
  intros Hsp. destruct m as [s e]. unfold record_match. cbn [fst snd].
  destruct (overlaps s e st.2); [done|]. cbn [fst snd].
  destruct (foldl_simulation respelled_dict spelled
              (record_definition text1 s e) (record_definition text2 s e)
              (default [] (index !! phrase)) st.1) as [HG HF]; [|done|].
  - intros found d _. apply record_definition_respelled.
  - split; [done|]. by rewrite HF.
Qed.

Lemma scan_phrase_respelled (index : gmap str (list glossary_entry)) (text_lower phrase : str)
    (st : term_dict * list (nat * nat)) :
  spelled st.1 ->
  spelled (scan_phrase index text1 text_lower st phrase).1
  /\ (respelled_dict (scan_phrase index text1 text_lower st phrase).1,
      (scan_phrase index text1 text_lower st phrase).2)
     = scan_phrase index text2 text_lower (respelled_dict st.1, st.2) phrase.
Proof.
  intros Hsp. unfold scan_phrase.
  apply (foldl_simulation (fun st => (respelled_dict st.1, st.2)) (fun st => spelled st.1));
    [|done].
  intros st' m _. apply record_match_respelled.
Qed.

Lemma enhanced_state_respelled (self : GlossaryService) (phrases : list str) :
  lower text1 = lower text2 ->
  (enhanced_state self phrases text2).1 = respelled_dict (enhanced_state self phrases text1).1.
Proof.
  intros Hlow. unfold enhanced_state. rewrite <- Hlow.
  destruct (foldl_simulation (fun st => (respelled_dict st.1, st.2)) (fun st => spelled st.1)
              (scan_phrase (phrase_index self) text1 (lower text1))
              (scan_phrase (phrase_index self) text2 (lower text1))
              (sorted_by_len_desc phrases) ([], [])) as [_ HF].
  - intros st phrase _. apply scan_phrase_respelled.
  - constructor.
  - apply (f_equal fst) in HF. symmetry. exact HF.
Qed.

End Respelling.

(** X23.  The enhanced matcher ignores the case of the text: two texts
    with the same lowercase form yield the same main terms, definitions and
    spans in the same order, and the same number of found terms.  The
    results differ only in [alias_found], which is read from the text
    given, and in [text_character_length], which is the length of the text
    given. *)
Theorem matching_ignores_case (self : GlossaryService) (phrases : list str)
    (text1 text2 : str) :
  lower text1 = lower text2 ->
  let result1 := find_and_define_phrases_in_text_enhanced self phrases text1 in
  let result2 := find_and_define_phrases_in_text_enhanced self phrases text2 in
  found_terms result2 = respelled_term text2 <$> found_terms result1
  /\ total_unique_phrases_found (summary_of result2)
     = total_unique_phrases_found (summary_of result1)
  /\ text_character_length (summary_of result1) = length text1
  /\ text_character_length (summary_of result2) = length text2.
Proof.
  intros Hlow. cbv zeta. split; [|split; [|done]].
  - rewrite !found_terms_enhanced_state, (enhanced_state_respelled text1 text2) by done.
    by rewrite <- !list_fmap_compose.
  - unfold find_and_define_phrases_in_text_enhanced.
    cbn [summary_of total_unique_phrases_found].
    fold (enhanced_state self phrases text1). fold (enhanced_state self phrases text2).
    rewrite (enhanced_state_respelled text1 text2) by done.
    by rewrite length_fmap.
Qed.

Lemma matching_ignores_case_overlap_text :
  let result1 := find_and_define_phrases_in_text_enhanced disease_service
                   [py "disease"; py "chronic disease"] overlap_text in
  let result2 := find_and_define_phrases_in_text_enhanced disease_service
                   [py "disease"; py "chronic disease"] (lower overlap_text) in
  found_terms result2 = respelled_term (lower overlap_text) <$> found_terms result1
  /\ total_unique_phrases_found (summary_of result2)
     = total_unique_phrases_found (summary_of result1)
  /\ text_character_length (summary_of result1) = length overlap_text
  /\ text_character_length (summary_of result2) = length (lower overlap_text).
Proof.
  apply (matching_ignores_case disease_service [py "disease"; py "chronic disease"]
           overlap_text (lower overlap_text)).
  reflexivity.
Defined.

(** ** The two matchers agree on whether anything is found *)

Lemma scan_nil_iff (text : str) (re : regex) (k s : nat) :
  scan text re k s 0 = [] <-> search_from text re k s = None.
Proof.
  revert s. induction k as [|k IH]; intros s; cbn [scan search_from]; [done|].
  change (s <? 0) with false. cbv iota.
  change (match_at text re false s)
    with (match match_here text (fun _ => true) re s with
          | Some (e, _) => Some e
          | None => None
          end).
  destruct (match_here text (fun _ => true) re s) as [[e groups]|]; [|apply IH].
  split; [|discriminate]. by destruct (e =? s).
Qed.

Lemma finditer_nil_iff (text : str) (re : regex) :
  finditer text re = [] <-> re_search text re = None.
Proof. apply scan_nil_iff. Qed.

Lemma simple_matcher_nothing (index : gmap str (list glossary_entry)) (text_to_scan : str)
    (l : list str) :
  (foldl (scan_phrase_simple index) ([], text_to_scan) l).1 = []
  <-> Forall (fun phrase => re_search text_to_scan (phrase_pattern phrase) = None) l.
Proof.
  induction l as [|p l IH]; cbn [foldl]; [by split; [constructor|]|].
  rewrite Forall_cons. unfold scan_phrase_simple at 2. cbn [fst snd].
  destruct (re_search text_to_scan (phrase_pattern p)) as [m|] eqn:E.
  - split; [|by intros [[=] _]]. intros Hnil. exfalso.
    destruct (scan_phrase_simple_keys (Service index ∅)
                (dict_set p (default [] (index !! p)) [],
                 remove_substring p text_to_scan) l) as (ks & Hks & _).
    cbn [phrase_index] in Hks. rewrite Hnil in Hks. discriminate.
  - rewrite IH. by split; [|intros [_ ?]].
Qed.

Lemma enhanced_matcher_nothing (self : GlossaryService) (phrases : list str) (text : str) :
  index_defines (phrase_index self) phrases = true ->
  (enhanced_state self phrases text).1 = []
  <-> forall phrase, phrase ∈ phrases ->
                     finditer (lower text) (phrase_pattern phrase) = [].
Proof.
  intros Hdef. split.
  - intros Hnil phrase Hphrase.
    destruct (finditer (lower text) (phrase_pattern phrase)) as [|r rs] eqn:E; [done|].
    exfalso.
    destruct (enhanced_state_covers self phrases text phrase r Hphrase) as (r' & Hr' & _).
    { rewrite E. by left. }
    destruct (enhanced_state_reports self phrases text Hdef r' Hr') as (kv & _ & Hkv & _).
    rewrite Hnil in Hkv. by apply elem_of_nil in Hkv.
  - intros Hnone. unfold enhanced_state.
    rewrite (foldl_invariant (fun st => st = ([], []))
               (scan_phrase (phrase_index self) text (lower text))
               (sorted_by_len_desc phrases) ([], [])); [done| |done].
    intros st phrase Hphrase ->. unfold scan_phrase.
    rewrite Hnone; [done|]. by rewrite <- (sorted_by_len_desc_perm phrases).
Qed.

(** X24.  When the index holds an entry for every known phrase, the simple
    matcher and the enhanced matcher agree on whether the text holds any
    known phrase: one returns the empty dict exactly when the other returns
    no found term. *)
Theorem matchers_agree_on_nothing_found (self : GlossaryService) (phrases : list str)
    (text : str) :
  index_defines (phrase_index self) phrases = true ->
  find_and_define_phrases_in_text self phrases text = []
  <-> found_terms (find_and_define_phrases_in_text_enhanced self phrases text) = [].
Proof.
  intros Hdef. unfold find_and_define_phrases_in_text.
  rewrite simple_matcher_nothing, found_terms_enhanced_state, Forall_forall.
  split.
  - intros Hnone.
    replace (enhanced_state self phrases text).1 with (@nil (str * found_term)); [done|].
    symmetry. apply enhanced_matcher_nothing; [done|].
    intros phrase Hphrase. apply finditer_nil_iff, Hnone.
    by rewrite sorted_by_len_desc_perm.
  - intros Hnil%fmap_nil_inv phrase Hphrase. apply finditer_nil_iff.
    apply (enhanced_matcher_nothing self phrases text Hdef); [done|].
    by rewrite <- (sorted_by_len_desc_perm phrases).
Qed.

Lemma matchers_agree_on_nothing_found_disease :
  find_and_define_phrases_in_text disease_service [py "disease"; py "chronic disease"]
    (py "No known phrase.") = []
  <-> found_terms (find_and_define_phrases_in_text_enhanced disease_service
                     [py "disease"; py "chronic disease"] (py "No known phrase.")) = [].
Proof.
  apply (matchers_agree_on_nothing_found disease_service
           [py "disease"; py "chronic disease"] (py "No known phrase.")).
  by vm_compute.
Defined.

(** ** Syllable count *)

Lemma is_ascii_lower_lower_char (c : ascii) :
  is_ascii_lower (lower_char c) = is_ascii_letter c.
Proof. each_char c. Qed.

Lemma is_vowel_not_e (c : ascii) : is_vowel c = false -> Ascii.eqb "e" c = false.
Proof. each_char c. Qed.

Lemma remove_non_letters_nil (word : str) :
  remove_non_letters (lower word) = [] <-> Forall (fun c => is_ascii_letter c = false) word.
Proof.
  unfold remove_non_letters, lower. induction word as [|c word IH]; cbn [map List.filter].
  - split; [constructor|done].
  - rewrite Forall_cons, <- IH, is_ascii_lower_lower_char.
    destruct (is_ascii_letter c); [|tauto]. split; [discriminate|]. by intros [[=] _].
Qed.

Lemma vowel_groups_le (in_group : bool) (w : str) :
  vowel_groups in_group w <= length (List.filter is_vowel w).
Proof.
  revert in_group. induction w as [|c w IH]; intros in_group; cbn [vowel_groups List.filter].
  - done.
  - destruct (is_vowel c); cbn [length].
    + specialize (IH true). destruct in_group; lia.
    + apply IH.
Qed.

Lemma vowel_groups_app (in_group : bool) (w v : str) :
  vowel_groups in_group (w ++ v)
  = vowel_groups in_group w
    + vowel_groups (match last w with Some c => is_vowel c | None => in_group end) v.
Proof.
  revert in_group. induction w as [|c w IH]; intros in_group; [done|].
  cbn [app vowel_groups]. rewrite !IH.
  replace (match last (c :: w) with Some c' => is_vowel c' | None => in_group end)
    with (match last w with Some c' => is_vowel c' | None => is_vowel c end).
  2:{ destruct w as [|c' w]; [done|]. change (last (c :: c' :: w)) with (last (c' :: w)).
      destruct (last (c' :: w)) eqn:El; [done|]. by apply last_None in El. }
  destruct (is_vowel c) eqn:E.
  - rewrite Nat.add_assoc. by destruct (last w).
  - by destruct (last w).
Qed.

Lemma filter_vowel_letters (l : str) :
  length (List.filter is_vowel (remove_non_letters l)) <= length (List.filter is_vowel l).
Proof.
  unfold remove_non_letters. induction l as [|x l IH]; [done|]. cbn [List.filter].
  destruct (is_ascii_lower x); cbn [List.filter]; destruct (is_vowel x); cbn [length]; lia.
Qed.

Lemma endswith_snoc (w : str) (c d : ascii) :
  endswith (w ++ [c]) [d] = Ascii.eqb d c.
Proof. unfold endswith. rewrite rev_app_distr. cbn. by rewrite andb_true_r. Qed.

(** X25.  The syllable count is 0 exactly when the word holds no letter of
    the ASCII alphabet; for every other word it is at least 1 and at most
    the number of vowel letters (a, e, i, o, u, y, in either case) of the
    word, or 1 when it has none. *)
Theorem count_syllables_range (word : str) :
  (count_syllables word = 0%Z <-> Forall (fun c => is_ascii_letter c = false) word)
  /\ (0 <= count_syllables word)%Z
  /\ (count_syllables word
      <= Z.max 1 (Z.of_nat (length (List.filter is_vowel (lower word)))))%Z.
Proof.
  rewrite <- remove_non_letters_nil. unfold count_syllables.
  destruct (remove_non_letters (lower word)) as [|c w] eqn:E.
  - split; [done|]. lia.
  - split; [split; [lia|discriminate]|]. split; [lia|].
    assert (Hle : vowel_groups false (c :: w) <= length (List.filter is_vowel (lower word))).
    { etrans; [apply vowel_groups_le|]. rewrite <- E. apply filter_vowel_letters. }
    destruct (endswith (c :: w) (py "e")); lia.
Qed.

Lemma count_syllables_letters (word : str) :
  remove_non_letters (lower word) <> [] ->
  count_syllables word
  = let w := remove_non_letters (lower word) in
    Z.max (if endswith w (py "e")
           then (Z.of_nat (vowel_groups false w) - 1)%Z
           else Z.of_nat (vowel_groups false w)) 1.
Proof. unfold count_syllables. by destruct (remove_non_letters (lower word)). Qed.

Lemma remove_non_letters_app (s1 s2 : str) :
  remove_non_letters (lower (s1 ++ s2))
  = remove_non_letters (lower s1) ++ remove_non_letters (lower s2).
Proof. unfold remove_non_letters, lower. by rewrite map_app, List.filter_app. Qed.

Lemma remove_non_letters_letter (c : ascii) :
  is_ascii_letter c = true -> remove_non_letters (lower [c]) = [lower_char c].
Proof.
  intros Hletter. unfold remove_non_letters, lower. cbn [map List.filter].
  by rewrite is_ascii_lower_lower_char, Hletter.
Qed.

(** X26.  A final "e" after a consonant letter is not counted: for a word
    that ends in a letter of the ASCII alphabet other than a, e, i, o, u
    and y, appending "e" leaves the syllable count unchanged. *)
Theorem final_e_is_silent (stem : str) (c : ascii) :
  is_ascii_letter c = true ->
  is_vowel (lower_char c) = false ->
  count_syllables (stem ++ [c] ++ py "e") = count_syllables (stem ++ [c]).
Proof.
  intros Hletter Hcons.
  assert (Hw : remove_non_letters (lower (stem ++ [c]))
               = remove_non_letters (lower stem) ++ [lower_char c]).
  { by rewrite remove_non_letters_app, remove_non_letters_letter. }
  assert (Hwe : remove_non_letters (lower (stem ++ [c] ++ py "e"))
                = (remove_non_letters (lower stem) ++ [lower_char c]) ++ ["e"%char]).
  { rewrite app_assoc, remove_non_letters_app, Hw. f_equal. }
  rewrite !count_syllables_letters.
  2:{ rewrite Hw. by destruct (remove_non_letters (lower stem)). }
  2:{ rewrite Hwe. by destruct (remove_non_letters (lower stem)). }
  cbv zeta. rewrite Hw, Hwe.
  change (py "e") with ["e"%char].
  rewrite !endswith_snoc, (is_vowel_not_e (lower_char c)) by done.
  change (Ascii.eqb "e" "e") with true. cbv iota.
  rewrite (vowel_groups_app _ (_ ++ [lower_char c])), last_snoc, Hcons.
  cbn [vowel_groups]. change (is_vowel "e") with true. cbv iota. lia.
Qed.

Lemma final_e_is_silent_made :
  count_syllables (py "ma" ++ ["d"%char] ++ py "e") = count_syllables (py "ma" ++ ["d"%char]).
Proof.
  apply (final_e_is_silent (py "ma") "d"); reflexivity.
Defined.
